(** * chay_story_assistant: text fitting, price tiers, tips dialogue, access list

    A shallow embedding of the label-layout helpers of [render.py]
    ([break_long_word], [wrap_lines], [fit_text], [fit_text_in_box],
    [fit_text_above_line], [category_from_price]), of the tips dialogue of
    [handlers.py] and of [AccessManager] from [access.py], followed by the
    properties established about them.

    Conventions of the embedding:
    - a Python [str] is the list of its Unicode code points ([list N]), and
      an absent text ([None], read as [text or ""]) is the empty list;
    - Python [int] is [Z]; a Python [float] (widths, coordinates, line-height
      multipliers) is an exact rational [Q], so binary64 rounding is outside
      the model;
    - [reportlab.pdfbase.pdfmetrics] is external and enters as the interface
      [PdfMetrics];
    - a function body is a block of statements run in the [exec] monad, which
      distinguishes falling through to the next statement, [return], a raised
      [IndexError] and a loop that exhausts its fuel. *)

From Stdlib Require Import ZArith QArith Qabs Lqa Lia List Bool.
From stdpp Require Import base list strings pretty gmap sorting.
Close Scope Q_scope.

(** ** Strings *)

Abbreviation char := N (only parsing).
Abbreviation str := (list N) (only parsing).

(** An ASCII literal as a Python string. *)
Definition lit (s : string) : str :=
  (λ a, Ascii.N_of_ascii a) <$> String.list_ascii_of_string s.

Definition SPACE : char := 32%N.
Definition ELLIPSIS : char := 8230%N.   (* U+2026 *)

(** [str.isspace] on one code point; the same set is matched by [\s] in a
    [str] pattern and removed by [str.strip]. *)
Definition isspace (c : char) : bool :=
  ((9 <=? c) && (c <=? 13) || (28 <=? c) && (c <=? 32) || (c =? 133) ||
   (c =? 160) || (c =? 5760) || (8192 <=? c) && (c <=? 8202) ||
   (c =? 8232) || (c =? 8233) || (c =? 8239) || (c =? 8287) ||
   (c =? 12288))%N.

Fixpoint lstrip (s : str) : str :=
  match s with
  | [] => []
  | c :: t => if isspace c then lstrip t else s
  end.

Definition rstrip (s : str) : str := rev (lstrip (rev s)).

Definition strip (s : str) : str := rstrip (lstrip s).

(** [re.sub(r"\s+", " ", s)]: [in_run] tells that the previous character
    belonged to a whitespace run that has already produced its space. *)
Fixpoint sub_ws_from (in_run : bool) (s : str) : str :=
  match s with
  | [] => []
  | c :: t =>
      if isspace c
      then (if in_run then sub_ws_from true t else SPACE :: sub_ws_from true t)
      else c :: sub_ws_from false t
  end.

Definition sub_ws (s : str) : str := sub_ws_from false s.

(** [re.sub(r"\s+", " ", (text or "").strip())] *)
Definition normalize_ws (text : str) : str := sub_ws (strip text).

(** [s.split(" ")] *)
Fixpoint split_space (s : str) : list str :=
  match s with
  | [] => [[]]
  | c :: t =>
      if (c =? SPACE)%N then [] :: split_space t
      else match split_space t with
           | w :: ws => (c :: w) :: ws
           | [] => [[c]]
           end
  end.

(** Truth value of a string. *)
Definition nonempty (s : str) : bool :=
  match s with [] => false | _ :: _ => true end.

(** ** Statement blocks *)

Inductive exec (R : Type) : Type :=
| Next            (* control reaches the end of the block *)
| Return (r : R)  (* a [return] statement was executed *)
| Raise           (* an IndexError escaped *)
| Timeout.        (* a [while] loop used up its fuel *)

Arguments Next {R}.
Arguments Return {R} r.
Arguments Raise {R}.
Arguments Timeout {R}.

(** [a ;; b]: run [b] only if [a] fell through. *)
Definition then_ {R} (a b : exec R) : exec R :=
  match a with
  | Next => b
  | _ => a
  end.

(** Evaluate a call whose callee is annotated [Optional[...]], then continue
    with its value; a callee that falls off its end yields [None]. *)
Definition call {A R} (c : exec (option A)) (k : option A → exec R) : exec R :=
  match c with
  | Next => k None
  | Return v => k v
  | Raise => Raise
  | Timeout => Timeout
  end.

(** [for x in xs: body x] *)
Fixpoint for_each {A R} (xs : list A) (body : A → exec R) : exec R :=
  match xs with
  | [] => Next
  | x :: rest => then_ (body x) (for_each rest body)
  end.

Notation "a ;;; b" := (then_ a b) (at level 62, right associativity).

(** [range(hi, lo - 1, -1)] *)
Definition range_desc (hi lo : Z) : list Z :=
  (λ k, hi - Z.of_nat k)%Z <$> seq 0 (Z.to_nat (hi - lo + 1)).

(** Truth value of an [Optional[List[str]]], and the list it holds. *)
Definition truthy (x : option (list str)) : bool :=
  match x with
  | Some (_ :: _) => true
  | _ => false
  end.

Definition unwrap (x : option (list str)) : list str := default [] x.

(** [x or d] *)
Definition or_else (x : option (list str)) (d : list str) : list str :=
  if truthy x then unwrap x else d.

(** ** Font metrics (external) *)

Class PdfMetrics := {
  stringWidth : str → str → Z → Q;   (* text, font name, size *)
  getAscent : str → Z → Q;
  getDescent : str → Z → Q
}.

(** A metric is additive when the width of a string is the sum of the
    advances of its characters, none negative at a non-negative size, as
    for reportlab's TrueType fonts. *)
Class Additive (M : PdfMetrics) := {
  width_app : ∀ font size a b,
    (stringWidth (a ++ b) font size == stringWidth a font size + stringWidth b font size)%Q;
  width_nonneg : ∀ font size a, (0 ≤ size)%Z → (0 <= stringWidth a font size)%Q
}.

Definition Qgtb (a b : Q) : bool := negb (Qle_bool a b).

(** ** render.py: wrapping *)

Definition text_width `{PdfMetrics} (font_name : str) (size : Z) (text : str) : Q :=
  stringWidth text font_name size.

(** The [for ch in word] loop of [break_long_word] on the state
    [(parts, buf)]. *)
Fixpoint break_chars `{PdfMetrics} (font_name : str) (size : Z) (max_width : Q)
    (word : str) (parts : list str) (buf : str) : list str * str :=
  match word with
  | [] => (parts, buf)
  | ch :: rest =>
      let test := buf ++ [ch] in
      if Qle_bool (text_width font_name size test) max_width
      then break_chars font_name size max_width rest parts test
      else if nonempty buf
           then break_chars font_name size max_width rest (parts ++ [buf]) [ch]
           else break_chars font_name size max_width rest (parts ++ [[ch]]) []
  end.

Definition break_long_word `{PdfMetrics} (word : str) (font_name : str) (size : Z)
    (max_width : Q) : list str :=
  let '(parts, buf) := break_chars font_name size max_width word [] [] in
  if nonempty buf then parts ++ [buf] else parts.

(** The [while i < len(words)] loop of [wrap_lines] on the state
    [(words, i, lines, current)], followed by the two statements after it. *)
Fixpoint wrap_loop `{PdfMetrics} (fuel : nat) (font_name : str) (size : Z)
    (max_width : Q) (max_lines : Z) (allow_word_break : bool)
    (words : list str) (i : nat) (lines : list str) (current : str)
    : exec (option (list str)) :=
  match fuel with
  | O => Timeout
  | S fuel' =>
      let place (words : list str) (w : str) :=
        let test := if nonempty current then strip (current ++ [SPACE] ++ w) else w in
        if Qle_bool (text_width font_name size test) max_width
        then wrap_loop fuel' font_name size max_width max_lines allow_word_break
               words (S i) lines test
        else
          let lines := lines ++ [current] in
          if (max_lines <=? Z.of_nat (length lines))%Z
          then Return None
          else wrap_loop fuel' font_name size max_width max_lines allow_word_break
                 words i lines []
      in
      if bool_decide (i < length words)
      then
        match words !! i with
        | None => Raise
        | Some w =>
            if Qgtb (text_width font_name size w) max_width
            then
              if negb allow_word_break then Return None
              else
                let pieces := break_long_word w font_name size max_width in
                let words := take i words ++ pieces ++ drop (S i) words in
                match words !! i with
                | None => Raise
                | Some w => place words w
                end
            else place words w
        end
      else
        let lines := if nonempty current then lines ++ [current] else lines in
        Return (if (Z.of_nat (length lines) <=? max_lines)%Z then Some lines else None)
  end.

(** Iterations that always suffice: every iteration either consumes a word,
    which holds at least one character, or closes a line. *)
Definition wrap_fuel (words : list str) (max_lines : Z) : nat :=
  S (length (concat words) + Z.to_nat max_lines).

Definition wrap_lines `{PdfMetrics} (text : str) (font_name : str) (size : Z)
    (max_width : Q) (max_lines : Z) (allow_word_break : bool)
    : exec (option (list str)) :=
  let text := normalize_ws text in
  if negb (nonempty text) then Return None
  else
    let words := split_space text in
    wrap_loop (wrap_fuel words max_lines) font_name size max_width max_lines
      allow_word_break words 0 [] [].

(** ** render.py: fitters *)

(** [((text or "").strip()[:20] + "…").strip()] *)
Definition ellipsis_line (text : str) : str :=
  strip (take 20 (strip text) ++ [ELLIPSIS]).

(** [fit_text] with every statement of its body, the statements after the
    first top-level [return] included. *)
Definition fit_text `{PdfMetrics} (text : str) (font_name : str) (max_size min_size : Z)
    (max_width : Q) (max_lines : Z) (allow_word_break : bool)
    : exec (Z * list str) :=
  for_each (range_desc max_size min_size) (λ size,
    call (wrap_lines text font_name size max_width max_lines allow_word_break) (λ lines,
      if truthy lines then Return (size, unwrap lines) else Next))
  ;;; (let size := min_size in
       call (wrap_lines text font_name size max_width max_lines allow_word_break) (λ lines,
         let lines := or_else lines [ellipsis_line text] in
         Return (size, lines)))
  ;;; (let size := min_size in
       call (wrap_lines text font_name size max_width max_lines true) (λ lines,
         let lines := or_else lines [ellipsis_line text] in
         Return (size, lines))).

(** [fit_text] as the specification describes it: the descending scan and the
    single documented fallback, nothing after it. *)
Definition fit_text_single_fallback `{PdfMetrics} (text : str) (font_name : str)
    (max_size min_size : Z) (max_width : Q) (max_lines : Z) (allow_word_break : bool)
    : exec (Z * list str) :=
  for_each (range_desc max_size min_size) (λ size,
    call (wrap_lines text font_name size max_width max_lines allow_word_break) (λ lines,
      if truthy lines then Return (size, unwrap lines) else Next))
  ;;; (let size := min_size in
       call (wrap_lines text font_name size max_width max_lines allow_word_break) (λ lines,
         let lines := or_else lines [ellipsis_line text] in
         Return (size, lines))).

(** [size * line_height * len(lines)] *)
Definition block_height (size : Z) (line_height : Q) (lines : list str) : Q :=
  (inject_Z size * line_height * inject_Z (Z.of_nat (length lines)))%Q.

Definition fit_text_in_box `{PdfMetrics} (text : str) (font_name : str)
    (max_size min_size : Z) (max_width : Q) (max_lines : Z) (max_height line_height : Q)
    (allow_word_break : bool) : exec (Z * list str) :=
  for_each (range_desc max_size min_size) (λ size,
    call (wrap_lines text font_name size max_width max_lines allow_word_break) (λ lines,
      if negb (truthy lines) then Next
      else
        let needed_h := block_height size line_height (unwrap lines) in
        if Qle_bool needed_h max_height then Return (size, unwrap lines) else Next))
  ;;; (let size := min_size in
       call (wrap_lines text font_name size max_width max_lines allow_word_break) (λ lines,
         let lines := or_else lines [ellipsis_line text] in
         Return (size, lines))).

(** [last_baseline + (len(lines) - 1) * (size * line_height) + ascent] *)
Definition top_glyph_of `{PdfMetrics} (font_name : str) (size : Z) (line_height : Q)
    (lines : list str) (last_baseline : Q) : Q :=
  let ascent := getAscent font_name size in
  let first_baseline :=
    (last_baseline + inject_Z (Z.of_nat (length lines) - 1) * (inject_Z size * line_height))%Q in
  (first_baseline + ascent)%Q.

(** [abs(pdfmetrics.getDescent(font_name, size))] *)
Definition descent_of `{PdfMetrics} (font_name : str) (size : Z) : Q :=
  Qabs (getDescent font_name size).

Definition fit_text_above_line `{PdfMetrics} (text : str) (font_name : str)
    (max_size min_size : Z) (max_width : Q) (max_lines : Z)
    (y_top y_line clearance line_height : Q) (allow_word_break : bool)
    : exec (Z * list str * Q) :=
  let text := normalize_ws text in
  if negb (nonempty text) then Return (min_size, [[]], (y_line + clearance)%Q)
  else
    let y_min_glyph := (y_line + clearance)%Q in
    for_each (range_desc max_size min_size) (λ size,
      call (wrap_lines text font_name size max_width max_lines allow_word_break) (λ lines,
        if negb (truthy lines) then Next
        else
          let lines := unwrap lines in
          let descent := descent_of font_name size in
          let last_baseline := (y_min_glyph + descent)%Q in
          let top_glyph := top_glyph_of font_name size line_height lines last_baseline in
          if Qle_bool top_glyph y_top then Return (size, lines, last_baseline) else Next))
    ;;; (let size := min_size in
         call (wrap_lines text font_name size max_width max_lines allow_word_break) (λ lines,
           let lines := or_else lines [text] in
           let descent := descent_of font_name size in
           let last_baseline := ((y_line + clearance) + descent)%Q in
           let top_glyph := top_glyph_of font_name size line_height lines last_baseline in
           if Qgtb top_glyph y_top
           then
             let shift := (top_glyph - y_top)%Q in
             Return (size, lines, (last_baseline - shift)%Q)
           else Return (size, lines, last_baseline))).

(** ** render.py: price tiers *)

Definition TIER_A : str := lit "A".
Definition TIER_A_PLUS : str := lit "A+".
Definition TIER_A_PLUS_PLUS : str := lit "A++".
(** "ПРЕМИУМ" *)
Definition TIER_PREMIUM : str := [1055; 1056; 1045; 1052; 1048; 1059; 1052]%N.

Definition category_from_price (price : Z) : str :=
  if (price <=? 20)%Z then TIER_A
  else if (price <=? 35)%Z then TIER_A_PLUS
  else if (price <=? 55)%Z then TIER_A_PLUS_PLUS
  else TIER_PREMIUM.

(** ** A concrete font for worked examples

    Every character advances by one unit per point of size, except [W],
    which advances by eight; ascent is 0.8 and descent -0.2 of the size. *)

Definition advance (c : char) : Z := if (c =? 87)%N then 8 else 1.

Definition advances (text : str) : Z := foldr (λ c acc, advance c + acc)%Z 0%Z text.

Definition demo_metrics : PdfMetrics := {|
  stringWidth := λ text _ size, inject_Z (size * advances text);
  getAscent := λ _ size, (inject_Z size * (8 # 10))%Q;
  getDescent := λ _ size, (- (inject_Z size * (2 # 10)))%Q
|}.


(** ** access.py *)

Record AccessManager := {
  admin_ids : gset Z;
  allowed_ids : gset Z;
  file : list Z   (* the "allowed_ids" array last written to file_path *)
}.

Definition _save (self : AccessManager) : AccessManager :=
  {| admin_ids := admin_ids self;
     allowed_ids := allowed_ids self;
     file := merge_sort Z.le (elements (allowed_ids self)) |}.

Definition is_admin (self : AccessManager) (user_id : Z) : bool :=
  bool_decide (user_id ∈ admin_ids self).

Definition is_allowed (self : AccessManager) (user_id : Z) : bool :=
  is_admin self user_id || bool_decide (user_id ∈ allowed_ids self).

Definition add_user (self : AccessManager) (user_id : Z) : AccessManager :=
  if bool_decide (user_id ∉ admin_ids self)
  then _save {| admin_ids := admin_ids self;
                allowed_ids := allowed_ids self ∪ {[user_id]};
                file := file self |}
  else self.

Definition del_user (self : AccessManager) (user_id : Z) : AccessManager :=
  if bool_decide (user_id ∈ allowed_ids self)
  then _save {| admin_ids := admin_ids self;
                allowed_ids := allowed_ids self ∖ {[user_id]};
                file := file self |}
  else self.

Definition list_users (self : AccessManager) : list Z :=
  merge_sort Z.le (elements (allowed_ids self)).

(** An access list whose file also names the administrator 1. *)
Definition demo_access : AccessManager :=
  {| admin_ids := {[1%Z]}; allowed_ids := {[1%Z; 2%Z]}; file := [1%Z; 2%Z] |}.

Inductive access_op :=
| AddUser (user_id : Z)
| DelUser (user_id : Z).

Definition apply_op (self : AccessManager) (op : access_op) : AccessManager :=
  match op with
  | AddUser u => add_user self u
  | DelUser u => del_user self u
  end.

Definition apply_ops (self : AccessManager) (ops : list access_op) : AccessManager :=
  foldl apply_op self ops.

(** ** handlers.py: the tips dialogue *)

Inductive fsm_state :=
| NoState
| TipsFSM_name
| TipsFSM_goal
| TipsFSM_link
| WaitFilesFSM_wait_tea_xlsx
| WaitFilesFSM_wait_products_xlsx.

(** The per-user [FSMContext]: current state and the data dictionary. *)
Record FSMContext := {
  state : fsm_state;
  data : gmap string str
}.

Definition cleared : FSMContext := {| state := NoState; data := ∅ |}.

Definition set_state (c : FSMContext) (s : fsm_state) : FSMContext :=
  {| state := s; data := data c |}.

Definition update_data (c : FSMContext) (key : string) (v : str) : FSMContext :=
  {| state := state c; data := <[key := v]> (data c) |}.

(** What a handler sends back. *)
Inductive reply :=
| Denied           (* deny(message) or the "Нет доступа" alert *)
| Menu             (* WELCOME_TEXT or DONE_TEXT with the main menu *)
| AskName
| AskGoal
| AskLink
| NameRejected     (* "Имя должно быть 1–40 символов. Попробуй ещё раз:" *)
| GoalRejected     (* "Цель должна быть 1–80 символов. Попробуй ещё раз:" *)
| LinkStrange      (* "Ссылка выглядит странно. ..." *)
| LinkNoScheme     (* "Ссылка должна начинаться с http:// или https://" *)
| TipsPdf (person_name goal link : str)
                   (* make_pdf_tips_two_sides(fonts, person_name, goal, link) *)
| Template         (* an Excel template was sent *)
| FileRejected     (* not an .xlsx, or load_rows_* raised *)
| Archive          (* the ZIP of labels was sent *)
| Ignored.         (* no handler matched *)

(** One literal, lower-case ASCII letter of a pattern compiled with [re.I]
    against a character: the letter, its capital and, for [s], U+017F. *)
Definition ci_match (letter x : char) : bool :=
  ((x =? letter) || (x =? letter - 32) || (letter =? 115) && (x =? 383))%N.

Fixpoint starts_with (prefix s : str) : bool :=
  match prefix, s with
  | [], _ => true
  | p :: prefix', c :: s' => (c =? p)%N && starts_with prefix' s'
  | _ :: _, [] => false
  end.

(** [re.match(r"^https?://", link, flags=re.I)] *)
Definition match_scheme (link : str) : bool :=
  match link with
  | h :: t1 :: t2 :: p :: rest =>
      ci_match 104%N h && ci_match 116%N t1 && ci_match 116%N t2 && ci_match 112%N p &&
      (match rest with
       | s :: rest' => ci_match 115%N s && starts_with (lit "://") rest'
       | [] => false
       end || starts_with (lit "://") rest)
  | _ => false
  end.

(** "Имя" and "Цель", the defaults of [data.get]. *)
Definition DEFAULT_NAME : str := [1048; 1084; 1103]%N.
Definition DEFAULT_GOAL : str := [1062; 1077; 1083; 1100]%N.

Definition tips_name (allowed : bool) (text : option str) (c : FSMContext)
    : FSMContext * reply :=
  if negb allowed then (c, Denied)
  else
    let text := strip (default [] text) in
    if negb (nonempty text) || (40 <? length text)
    then (c, NameRejected)
    else (set_state (update_data c "tips_name" text) TipsFSM_goal, AskGoal).

Definition tips_goal (allowed : bool) (text : option str) (c : FSMContext)
    : FSMContext * reply :=
  if negb allowed then (c, Denied)
  else
    let text := strip (default [] text) in
    if negb (nonempty text) || (80 <? length text)
    then (c, GoalRejected)
    else (set_state (update_data c "tips_goal" text) TipsFSM_link, AskLink).

Definition tips_link (allowed : bool) (text : option str) (c : FSMContext)
    : FSMContext * reply :=
  if negb allowed then (c, Denied)
  else
    let link := strip (default [] text) in
    if negb (nonempty link) || (300 <? length link)
    then (c, LinkStrange)
    else if negb (match_scheme link)
    then (c, LinkNoScheme)
    else
      let person_name := default DEFAULT_NAME (data c !! "tips_name") in
      let goal := default DEFAULT_GOAL (data c !! "tips_goal") in
      (cleared, TipsPdf person_name goal link).

(** What reaches the router for one user.  A message carries its text and
    whether it holds a workbook that [load_rows_*] accepts. *)
Inductive event :=
| CmdStart
| CbCancel
| CbTea
| CbProducts
| CbTips
| CbTipsBackName
| CbTipsBackGoal
| CbTipsBackLink
| Msg (text : option str) (good_xlsx : bool).

(** The router: the handler registered for the event and the current state
    runs; [allowed] is [access.is_allowed(from_user.id)] at that moment.
    Commands other than [/start] never change the context and are left out;
    a message whose text is a command is delivered here to the state handler,
    which only adds behaviours. *)
Definition dispatch (c : FSMContext) (allowed : bool) (e : event) : FSMContext * reply :=
  match e with
  | CmdStart => if allowed then (cleared, Menu) else (c, Denied)
  | CbCancel => if allowed then (cleared, Menu) else (c, Denied)
  | CbTea => if allowed then (set_state c WaitFilesFSM_wait_tea_xlsx, Template) else (c, Denied)
  | CbProducts =>
      if allowed then (set_state c WaitFilesFSM_wait_products_xlsx, Template) else (c, Denied)
  | CbTips => if allowed then (set_state cleared TipsFSM_name, AskName) else (c, Denied)
  | CbTipsBackName => if allowed then (set_state c TipsFSM_name, AskName) else (c, Denied)
  | CbTipsBackGoal => if allowed then (set_state c TipsFSM_goal, AskGoal) else (c, Denied)
  | CbTipsBackLink => if allowed then (set_state c TipsFSM_link, AskLink) else (c, Denied)
  | Msg text good_xlsx =>
      match state c with
      | NoState => (c, Ignored)
      | TipsFSM_name => tips_name allowed text c
      | TipsFSM_goal => tips_goal allowed text c
      | TipsFSM_link => tips_link allowed text c
      | WaitFilesFSM_wait_tea_xlsx | WaitFilesFSM_wait_products_xlsx =>
          if negb allowed then (c, Denied)
          else if good_xlsx then (cleared, Archive) else (c, FileRejected)
      end
  end.

(** The replies to a sequence of events, starting from context [c]. *)
Fixpoint dialogue (c : FSMContext) (events : list (bool * event)) : list reply :=
  match events with
  | [] => []
  | (allowed, e) :: rest =>
      let '(c', r) := dispatch c allowed e in
      r :: dialogue c' rest
  end.


(** ** access.py: construction and loading *)

(** What [file_path] holds when the manager is built: no file, a file that
    [json.loads], [data.get] or [int] rejects, or a file whose "allowed_ids"
    entries (none, if the key is absent) convert to [ids]. *)
Inductive file_content :=
| NoFile
| BadFile
| IdsFile (ids : list Z).

Definition _load (self : AccessManager) (content : file_content) : AccessManager :=
  match content with
  | NoFile => _save self
  | IdsFile ids =>
      {| admin_ids := admin_ids self; allowed_ids := list_to_set ids; file := ids |}
  | BadFile =>
      _save {| admin_ids := admin_ids self; allowed_ids := ∅; file := file self |}
  end.

Definition __init__ (content : file_content) (admins : list Z) : AccessManager :=
  _load {| admin_ids := list_to_set admins; allowed_ids := ∅; file := [] |} content.

(** ** render.py: small utilities *)

(** "часов", "час", "часа" *)
Definition HOURS_MANY : str := [1095; 1072; 1089; 1086; 1074]%N.
Definition HOURS_ONE : str := [1095; 1072; 1089]%N.
Definition HOURS_FEW : str := [1095; 1072; 1089; 1072]%N.

Definition hours_word (n : Z) : str :=
  let n := Z.abs n in
  let n100 := (n mod 100)%Z in
  let n10 := (n mod 10)%Z in
  if (11 <=? n100)%Z && (n100 <=? 14)%Z then HOURS_MANY
  else if (n10 =? 1)%Z then HOURS_ONE
  else if (2 <=? n10)%Z && (n10 <=? 4)%Z then HOURS_FEW
  else HOURS_MANY.

(** [str(k)] for an integer. *)
Definition str_of_int (k : Z) : str := lit (pretty k).

(** One round of the loop of [unique_names] on the state [(used, out)]. *)
Definition unique_names_step (st : gmap (list N) Z * list str) (n : str)
    : gmap (list N) Z * list str :=
  let '(used, out) := st in
  match used !! n with
  | None => (<[n := 1%Z]> used, out ++ [n])
  | Some k => (<[n := (k + 1)%Z]> used, out ++ [n ++ lit "_" ++ str_of_int (k + 1)])
  end.

Definition unique_names (base_names : list str) : list str :=
  (foldl unique_names_step (∅, []) base_names).2.

(** The character class of the first substitution of [safe_filename]:
    backslash, slash, colon, asterisk, question mark, double quote, the two
    angle brackets, bar, newline, carriage return and tab. *)
Definition forbidden (c : char) : bool :=
  ((c =? 92) || (c =? 47) || (c =? 58) || (c =? 42) || (c =? 63) || (c =? 34) ||
   (c =? 60) || (c =? 62) || (c =? 124) || (c =? 10) || (c =? 13) || (c =? 9))%N.

(** [re.sub] of every run of such characters by one space. *)
Fixpoint sub_forbidden_from (in_run : bool) (s : str) : str :=
  match s with
  | [] => []
  | c :: t =>
      if forbidden c
      then (if in_run then sub_forbidden_from true t
            else SPACE :: sub_forbidden_from true t)
      else c :: sub_forbidden_from false t
  end.

(** [s[:k]] *)
Definition slice_to (k : Z) (s : str) : str :=
  if (k <? 0)%Z then take (Z.to_nat (Z.of_nat (length s) + k)) s
  else take (Z.to_nat k) s.

Definition safe_filename (name : str) (max_len : Z) : str :=
  let name := strip name in
  let name := sub_forbidden_from false name in
  let name := strip (sub_ws name) in
  let name := if negb (nonempty name) then lit "item" else name in
  if (max_len <? Z.of_nat (length name))%Z then rstrip (slice_to max_len name)
  else name.

(** [" ".join(parts)] *)
Fixpoint join_space (parts : list str) : str :=
  match parts with
  | [] => []
  | [p] => p
  | p :: rest => p ++ [SPACE] ++ join_space rest
  end.

(** The characters of a string that are not spaces. *)
Definition letters (s : str) : str := filter (λ c, c ≠ SPACE) s.

(** ** render.py: sentence case *)

(** The class [[.!?]]. *)
Definition is_terminator (c : char) : bool :=
  ((c =? 46) || (c =? 33) || (c =? 63))%N.

(** [re.split(r"([.!?]+)", s)]: text and runs of terminators in turn, the
    first and the last part being text; [in_run] tells that the part being
    read is a run of terminators. *)
Fixpoint split_terminators_from (in_run : bool) (s : str) : list str :=
  match s with
  | [] => if in_run then [[]; []] else [[]]
  | c :: t =>
      if Bool.eqb (is_terminator c) in_run
      then match split_terminators_from in_run t with
           | p :: ps => (c :: p) :: ps
           | [] => [[c]]
           end
      else match split_terminators_from (negb in_run) t with
           | p :: ps => [] :: (c :: p) :: ps
           | [] => [[]; [c]]
           end
  end.

(** The class [[A-Za-zА-Яа-яЁё]]. *)
Definition is_letter (c : char) : bool :=
  ((65 <=? c) && (c <=? 90) || (97 <=? c) && (c <=? 122) ||
   (1040 <=? c) && (c <=? 1103) || (c =? 1025) || (c =? 1105))%N.

(** [str.upper] on a character of that class. *)
Definition upper_letter (c : char) : char :=
  (if (97 <=? c) && (c <=? 122) || (1072 <=? c) && (c <=? 1103) then c - 32
   else if c =? 1105 then 1025 else c)%N.

(** [chunk[:idx] + chunk[idx].upper() + chunk[idx + 1:]] for the first
    letter of the chunk, if it has one. *)
Fixpoint capitalize_first (chunk : str) : str :=
  match chunk with
  | [] => []
  | c :: t => if is_letter c then upper_letter c :: t else c :: capitalize_first t
  end.

(** The list [out] built by the loop over [range(0, len(parts), 2)]. *)
Fixpoint sentence_chunks (parts : list str) : list str :=
  match parts with
  | [] => []
  | text :: rest =>
      let chunk := strip text in
      let chunk := if nonempty chunk then capitalize_first chunk else chunk in
      match rest with
      | [] => [chunk ++ []]
      | punct :: rest' => (chunk ++ punct) :: sentence_chunks rest'
      end
  end.

(** [re.sub(r"\s+([.!?])", r"\1", s)] *)
Fixpoint close_up_terminators (s : str) : str :=
  match s with
  | [] => []
  | c :: t =>
      if isspace c &&
         match lstrip t with
         | d :: _ => is_terminator d
         | [] => false
         end
      then close_up_terminators t
      else c :: close_up_terminators t
  end.

Definition normalize_sentence_case (text : str) : str :=
  let s := normalize_ws text in
  if negb (nonempty s) then s
  else
    let parts := split_terminators_from false s in
    let out := sentence_chunks parts in
    let res := join_space (filter (λ x, x ≠ []) (strip <$> out)) in
    let res := close_up_terminators res in
    strip res.

(** ** render.py: drawing *)












(** The parts of [re.split] at odd positions are runs of terminators. *)
Fixpoint runs_ok (in_run : bool) (parts : list str) : Prop :=
  match parts with
  | [] => True
  | p :: ps =>
      (in_run = true → Forall (λ c, is_terminator c = true) p) ∧ runs_ok (negb in_run) ps
  end.

(** The characters of a string that are not whitespace. *)
Definition visible (s : str) : str := filter (λ c, isspace c = false) s.

(** The first character of the class of letters, if any. *)
Definition first_letter (s : str) : option char := head (filter (λ c, is_letter c = true) s).

(** * Properties *)

(** ** Whitespace handling *)

(** A string is [tidy] when every whitespace character in it is a single
    space standing between two words; with [after_space] the string must
    moreover start with a word. *)
Fixpoint tidy (after_space : bool) (t : str) : bool :=
  match t with
  | [] => negb after_space
  | c :: t' =>
      if (c =? SPACE)%N then negb after_space && tidy true t'
      else negb (isspace c) && tidy false t'
  end.

(** The last character, if any, is not whitespace. *)
Definition ends_ok (s : str) : Prop :=
  ∀ c, last s = Some c → isspace c = false.

(** The first character, if any, is not whitespace. *)
Definition starts_ok (s : str) : Prop :=
  ∀ c, head s = Some c → isspace c = false.

(** A word of a normalised text: not empty, no whitespace inside. *)
Definition is_word (w : str) : Prop :=
  w ≠ [] ∧ Forall (λ c, isspace c = false) w.

Lemma isspace_SPACE : isspace SPACE = true.
Proof. reflexivity. Qed.

Lemma not_space_neq (c : char) : isspace c = false → (c =? SPACE)%N = false.
Proof.
  intros Hc. destruct (N.eqb_spec c SPACE) as [->|]; [|done].
  by rewrite isspace_SPACE in Hc.
Qed.

Lemma lstrip_starts_ok (s : str) : starts_ok (lstrip s).
Proof.
  induction s as [|c t IH]; intros x; simpl; [done|].
  destruct (isspace c) eqn:Hc; [apply IH|].
  simpl. by intros [= <-].
Qed.

Lemma lstrip_suffix (s : str) : ∃ pre, s = pre ++ lstrip s.
Proof.
  induction s as [|c t [pre IH]]; simpl; [by exists []|].
  destruct (isspace c).
  - exists (c :: pre). simpl. by f_equal.
  - by exists [].
Qed.

Lemma lstrip_id (s : str) : starts_ok s → lstrip s = s.
Proof.
  destruct s as [|c t]; [done|]. intros H. simpl.
  by rewrite (H c eq_refl).
Qed.

Lemma last_rev_head {A} (l : list A) : last (rev l) = head l.
Proof. destruct l as [|a l]; [done|]. simpl. by rewrite last_snoc. Qed.

Lemma head_rev_last {A} (l : list A) : head (rev l) = last l.
Proof. by rewrite <- (rev_involutive l) at 2; rewrite last_rev_head. Qed.

Lemma rstrip_ends_ok (s : str) : ends_ok (rstrip s).
Proof.
  intros c. unfold rstrip. rewrite last_rev_head. apply lstrip_starts_ok.
Qed.

Lemma rstrip_prefix (s : str) : ∃ post, s = rstrip s ++ post.
Proof.
  destruct (lstrip_suffix (rev s)) as [pre Hpre].
  exists (rev pre). unfold rstrip.
  rewrite <- rev_app_distr, <- Hpre. by rewrite rev_involutive.
Qed.

Lemma rstrip_starts_ok (s : str) : starts_ok s → starts_ok (rstrip s).
Proof.
  intros Hs c Hc. destruct (rstrip_prefix s) as [post Hpost].
  apply Hs. rewrite Hpost. by destruct (rstrip s).
Qed.

Lemma strip_starts_ok (s : str) : starts_ok (strip s).
Proof. apply rstrip_starts_ok, lstrip_starts_ok. Qed.

Lemma strip_ends_ok (s : str) : ends_ok (strip s).
Proof. apply rstrip_ends_ok. Qed.

Lemma strip_id (s : str) : starts_ok s → ends_ok s → strip s = s.
Proof.
  intros Hs He. unfold strip. rewrite (lstrip_id s Hs).
  unfold rstrip. rewrite lstrip_id; [apply rev_involutive|].
  intros c. rewrite head_rev_last. apply He.
Qed.

Lemma ends_ok_tail (c : char) (t : str) : t ≠ [] → ends_ok (c :: t) → ends_ok t.
Proof.
  intros Ht H x Hx. apply H. destruct t; [done|]. exact Hx.
Qed.

Lemma sub_ws_from_tidy (s : str) (b : bool) :
  ends_ok s → (b = true → s ≠ []) → tidy b (sub_ws_from b s) = true.
Proof.
  revert b. induction s as [|c t IH]; intros b He Hb.
  - destruct b; [by destruct Hb|done].
  - simpl. destruct (isspace c) eqn:Hc.
    + assert (t ≠ []) as Ht.
      { intros ->. specialize (He c eq_refl). congruence. }
      destruct b; simpl.
      * apply IH; [by eapply ends_ok_tail|done].
      * apply IH; [by eapply ends_ok_tail|done].
    + simpl. rewrite (not_space_neq c Hc), Hc. simpl.
      destruct t as [|c' t']; [done|].
      apply IH; [by eapply ends_ok_tail|done].
Qed.

Lemma tidy_words (t : str) (b : bool) :
  tidy b t = true →
  ∃ w ws, split_space t = w :: ws ∧ (b = true → w ≠ []) ∧
          Forall (λ c, isspace c = false) w ∧ Forall is_word ws.
Proof.
  revert b. induction t as [|c t IH]; intros b Ht; simpl in *.
  - exists [], []. destruct b; [done|]. repeat split; auto.
  - destruct (c =? SPACE)%N eqn:Hc.
    + apply andb_true_iff in Ht as [Hb Ht].
      destruct (IH true Ht) as (w & ws & -> & Hw & Hns & Hws).
      exists [], (w :: ws). destruct b; [done|].
      repeat split; auto. constructor; [|done]. split; auto.
    + apply andb_true_iff in Ht as [Hs Ht]. apply negb_true_iff in Hs.
      destruct (IH false Ht) as (w & ws & -> & _ & Hns & Hws).
      exists (c :: w), ws. repeat split; auto.
Qed.

Lemma sub_ws_from_starts (s : str) :
  starts_ok s → tidy false (sub_ws_from false s) = true →
  sub_ws_from false s ≠ [] → tidy true (sub_ws_from false s) = true.
Proof.
  destruct s as [|c t]; [done|]. intros Hs. simpl.
  rewrite (Hs c eq_refl). simpl. rewrite (not_space_neq c (Hs c eq_refl)).
  done.
Qed.

(** The words of a normalised, non-empty text are proper words. *)
Lemma normalize_ws_words (text : str) :
  nonempty (normalize_ws text) = true →
  Forall is_word (split_space (normalize_ws text)).
Proof.
  intros Hne. unfold normalize_ws, sub_ws in *.
  assert (tidy true (sub_ws_from false (strip text)) = true) as Ht.
  { apply sub_ws_from_starts; [apply strip_starts_ok| |].
    - apply sub_ws_from_tidy; [apply strip_ends_ok|done].
    - by destruct (sub_ws_from false (strip text)). }
  destruct (tidy_words _ _ Ht) as (w & ws & -> & Hw & Hns & Hws).
  constructor; [|done]. split; auto.
Qed.

(** ** Breaking a long word *)

Section wrapping.
Context `{M : PdfMetrics}.
Variables (font_name : str) (size : Z) (max_width : Q).

(** The string passes the width test of the wrapper. *)
Definition fits (s : str) : Prop :=
  Qle_bool (text_width font_name size s) max_width = true.

(** What [break_long_word] can emit: a prefix that passed the test, or one
    character that was never tested on its own. *)
Definition piece_ok (p : str) : Prop := fits p ∨ ∃ ch, p = [ch].

Lemma break_chars_concat (word : str) (parts : list str) (buf : str) :
  let '(parts', buf') := break_chars font_name size max_width word parts buf in
  concat parts' ++ buf' = concat parts ++ buf ++ word.
Proof.
  revert parts buf. induction word as [|ch rest IH]; intros parts buf; simpl.
  - by rewrite app_nil_r.
  - destruct (Qle_bool _ _).
    + specialize (IH parts (buf ++ [ch])).
      destruct (break_chars _ _ _ rest parts (buf ++ [ch])) as [p b].
      rewrite IH. by rewrite <- !app_assoc.
    + destruct buf as [|b0 buf]; simpl.
      * specialize (IH (parts ++ [[ch]]) []).
        destruct (break_chars _ _ _ rest (parts ++ [[ch]]) []) as [p b].
        rewrite IH, concat_app. simpl. by rewrite <- !app_assoc.
      * specialize (IH (parts ++ [b0 :: buf]) [ch]).
        destruct (break_chars _ _ _ rest (parts ++ [b0 :: buf]) [ch]) as [p b].
        rewrite IH, concat_app. simpl. rewrite app_nil_r.
        by rewrite <- !app_assoc.
Qed.

Lemma break_long_word_concat (word : str) :
  concat (break_long_word word font_name size max_width) = word.
Proof.
  unfold break_long_word.
  pose proof (break_chars_concat word [] []) as H.
  destruct (break_chars _ _ _ word [] []) as [p b]. simpl in H.
  destruct b as [|c b]; simpl.
  - by rewrite app_nil_r in H.
  - rewrite concat_app. simpl. by rewrite app_nil_r.
Qed.

Lemma break_chars_pieces (P : str → Prop) (word : str) (parts : list str) (buf : str) :
  (∀ b ch, fits (b ++ [ch]) → P (b ++ [ch])) → (∀ ch, P [ch]) →
  Forall P parts → (buf = [] ∨ P buf) →
  let '(parts', buf') := break_chars font_name size max_width word parts buf in
  Forall P parts' ∧ (buf' = [] ∨ P buf').
Proof.
  intros Hfit Hone. revert parts buf.
  induction word as [|ch rest IH]; intros parts buf Hparts Hbuf; simpl; [done|].
  destruct (Qle_bool _ _) eqn:Hq.
  - apply IH; [done|]. right. by apply Hfit.
  - destruct buf as [|b0 buf]; simpl.
    + apply IH; [|by left]. apply Forall_app. split; [done|]. by constructor.
    + apply IH; [|by right]. apply Forall_app. split; [done|].
      constructor; [|done]. by destruct Hbuf.
Qed.

Lemma break_long_word_pieces (P : str → Prop) (word : str) :
  (∀ b ch, fits (b ++ [ch]) → P (b ++ [ch])) → (∀ ch, P [ch]) →
  Forall P (break_long_word word font_name size max_width).
Proof.
  intros Hfit Hone. unfold break_long_word.
  pose proof (break_chars_pieces P word [] [] Hfit Hone (Forall_nil_2 _) (or_introl eq_refl)) as H.
  destruct (break_chars _ _ _ word [] []) as [p b]. destruct H as [Hp Hb].
  destruct b as [|c b]; simpl; [done|].
  apply Forall_app. split; [done|]. constructor; [|done]. by destruct Hb.
Qed.

Lemma break_long_word_nonempty (word : str) :
  Forall (λ p, p ≠ []) (break_long_word word font_name size max_width).
Proof.
  apply break_long_word_pieces; [|done]. intros b ch _. by destruct b.
Qed.

Lemma break_long_word_piece_ok (word : str) :
  Forall piece_ok (break_long_word word font_name size max_width).
Proof.
  apply break_long_word_pieces.
  - intros b ch Hf. by left.
  - intros ch. right. by exists ch.
Qed.

(** A word with a character yields at least one piece. *)
Lemma break_long_word_some (word : str) :
  word ≠ [] → break_long_word word font_name size max_width ≠ [].
Proof.
  intros Hw Hnil. pose proof (break_long_word_concat word) as H.
  rewrite Hnil in H. simpl in H. congruence.
Qed.

(** One over-wide character is its own only piece. *)
Lemma break_long_word_single (ch : char) :
  Qgtb (text_width font_name size [ch]) max_width = true →
  break_long_word [ch] font_name size max_width = [[ch]].
Proof.
  unfold Qgtb, break_long_word. intros H. apply negb_true_iff in H.
  simpl. by rewrite H.
Qed.

(** ** The wrapping loop *)

Local Abbreviation loop fuel max_lines allow :=
  (wrap_loop fuel font_name size max_width max_lines allow).

(** Replacing a word by its pieces keeps everything before it. *)
Lemma splice_lookup (words pieces : list str) (i : nat) (w : str) :
  words !! i = Some w →
  (take i words ++ pieces ++ drop (S i) words) !! i = (pieces ++ drop (S i) words) !! 0.
Proof.
  intros Hw. apply lookup_lt_Some in Hw.
  rewrite lookup_app_r; rewrite length_take; [|lia].
  by replace (i - i `min` length words) with 0 by lia.
Qed.

Lemma splice_drop (words pieces : list str) (i : nat) (w : str) :
  words !! i = Some w →
  drop i (take i words ++ pieces ++ drop (S i) words) = pieces ++ drop (S i) words.
Proof.
  intros Hw. apply lookup_lt_Some in Hw.
  rewrite drop_app_length'; [done|]. rewrite length_take. lia.
Qed.

Lemma splice_single (words : list str) (i : nat) (w : str) :
  words !! i = Some w → take i words ++ [w] ++ drop (S i) words = words.
Proof. intros Hw. by apply take_drop_middle. Qed.

(** A successful wrap respects the line budget. *)
Lemma wrap_loop_count fuel max_lines allow words i lines current l :
  loop fuel max_lines allow words i lines current = Return (Some l) →
  (Z.of_nat (length l) ≤ max_lines)%Z.
Proof.
  revert words i lines current.
  induction fuel as [|fuel IH]; intros words i lines current; simpl; [done|].
  intros H. repeat case_match; simplify_eq; eauto; lia.
Qed.

(** The tail of one iteration, once the word [w] to place is known. *)
Definition place (fuel : nat) (max_lines : Z) (allow : bool) (words : list str)
    (i : nat) (lines : list str) (current w : str) : exec (option (list str)) :=
  let test := if nonempty current then strip (current ++ [SPACE] ++ w) else w in
  if Qle_bool (text_width font_name size test) max_width
  then loop fuel max_lines allow words (S i) lines test
  else
    if (max_lines <=? Z.of_nat (length (lines ++ [current])))%Z
    then Return None
    else loop fuel max_lines allow words i (lines ++ [current]) [].

Lemma wrap_loop_unfold fuel max_lines allow words i lines current :
  loop (S fuel) max_lines allow words i lines current =
  if bool_decide (i < length words)
  then
    match words !! i with
    | None => Raise
    | Some w =>
        if Qgtb (text_width font_name size w) max_width
        then
          if negb allow then Return None
          else
            let words' :=
              take i words ++ break_long_word w font_name size max_width ++ drop (S i) words in
            match words' !! i with
            | None => Raise
            | Some w' => place fuel max_lines allow words' i lines current w'
            end
        else place fuel max_lines allow words i lines current w
    end
  else
    let lines' := if nonempty current then lines ++ [current] else lines in
    Return (if (Z.of_nat (length lines') <=? max_lines)%Z then Some lines' else None).
Proof. reflexivity. Qed.

(** Characters still to be placed, plus lines still allowed. *)
Definition budget (max_lines : Z) (words : list str) (i : nat) (lines : list str) : nat :=
  length (concat (drop i words)) + Z.to_nat (max_lines - Z.of_nat (length lines)).

Lemma place_returns fuel max_lines allow words i lines current w :
  (∀ words' i' lines' current',
     Forall (λ w, w ≠ []) words' →
     budget max_lines words' i' lines' < fuel →
     ∃ r, loop fuel max_lines allow words' i' lines' current' = Return r) →
  Forall (λ w, w ≠ []) words → words !! i = Some w →
  budget max_lines words i lines < S fuel →
  ∃ r, place fuel max_lines allow words i lines current w = Return r.
Proof.
  intros IH Hne Hw Hb. unfold place.
  assert (w ≠ []) as Hwne by (eapply Forall_lookup_1 in Hne; eauto).
  unfold budget in *. rewrite (drop_S _ _ _ Hw) in Hb. simpl in Hb.
  rewrite length_app in Hb.
  assert (0 < length w) by (destruct w; [done|simpl; lia]).
  destruct (Qle_bool _ _).
  - apply IH; [done|]. unfold budget. lia.
  - destruct (Z.leb_spec max_lines (Z.of_nat (length (lines ++ [current])))); [by eauto|].
    apply IH; [done|]. unfold budget.
    rewrite (drop_S _ _ _ Hw). simpl. rewrite !length_app in *. simpl in *. lia.
Qed.

(** With fuel above the budget the loop returns: it neither raises nor
    runs out of fuel. *)
Lemma wrap_loop_returns fuel max_lines allow words i lines current :
  Forall (λ w, w ≠ []) words →
  budget max_lines words i lines < fuel →
  ∃ r, loop fuel max_lines allow words i lines current = Return r.
Proof.
  revert words i lines current.
  induction fuel as [|fuel IH]; intros words i lines current Hne Hb; [lia|].
  rewrite wrap_loop_unfold. case_bool_decide as Hi; [|by eauto].
  destruct (lookup_lt_is_Some_2 words i Hi) as [w Hw]. rewrite Hw.
  destruct (Qgtb _ _); [|by eapply place_returns].
  destruct allow; simpl; [|by eauto].
  set (pieces := break_long_word w font_name size max_width).
  assert (w ≠ []) as Hwne by (eapply Forall_lookup_1 in Hne; eauto).
  pose proof (break_long_word_some w Hwne) as Hsome.
  pose proof (break_long_word_nonempty w) as Hpne.
  pose proof (break_long_word_concat w) as Hcat.
  fold pieces in Hsome, Hpne, Hcat.
  rewrite (splice_lookup _ _ _ _ Hw).
  destruct pieces as [|p ps] eqn:Hp; [done|]. simpl.
  change (take i words ++ p :: ps ++ drop (S i) words)
    with (take i words ++ (p :: ps) ++ drop (S i) words).
  eapply place_returns; [done| | |].
  - apply Forall_app. split; [by apply Forall_take|].
    apply Forall_app. split; [done|by apply Forall_drop].
  - by rewrite (splice_lookup _ _ _ _ Hw).
  - unfold budget in *. rewrite (splice_drop _ _ _ _ Hw).
    rewrite (drop_S _ _ _ Hw) in Hb. simpl in Hb.
    rewrite concat_app, Hcat. exact Hb.
Qed.

(** More fuel does not change a returned result. *)
Lemma wrap_loop_fuel_mono fuel fuel' max_lines allow words i lines current r :
  loop fuel max_lines allow words i lines current = Return r →
  fuel ≤ fuel' →
  loop fuel' max_lines allow words i lines current = Return r.
Proof.
  revert fuel' words i lines current.
  induction fuel as [|fuel IH]; intros fuel' words i lines current; [done|].
  intros H Hle. destruct fuel' as [|fuel']; [lia|].
  assert (fuel ≤ fuel') as Hle' by lia.
  rewrite wrap_loop_unfold in *. unfold place in *.
  repeat case_match; simplify_eq; eauto.
Qed.

(** Once a lone over-wide character is met with an empty current line, the
    loop only closes empty lines until the budget is gone. *)
Lemma wrap_loop_stuck fuel max_lines allow words i lines ch r :
  words !! i = Some [ch] →
  Qgtb (text_width font_name size [ch]) max_width = true →
  loop fuel max_lines allow words i lines [] = Return r →
  r = None.
Proof.
  intros Hw Hgt. revert lines.
  induction fuel as [|fuel IH]; intros lines; [done|].
  rewrite wrap_loop_unfold.
  rewrite bool_decide_eq_true_2 by (by eapply lookup_lt_Some).
  rewrite Hw, Hgt. destruct allow; simpl; [|by intros [= <-]].
  rewrite (break_long_word_single ch Hgt), (splice_single _ _ _ Hw), Hw.
  unfold place. simpl.
  unfold Qgtb in Hgt. apply negb_true_iff in Hgt. rewrite Hgt.
  destruct (max_lines <=? _)%Z; [by intros [= <-]|]. apply IH.
Qed.

Lemma place_widths fuel max_lines allow words i lines current w l :
  (∀ words' i' lines' current' l',
     Forall (λ w, w ≠ []) words' →
     Forall fits lines' → (current' = [] ∨ fits current') →
     loop fuel max_lines allow words' i' lines' current' = Return (Some l') →
     Forall fits l') →
  Forall (λ w, w ≠ []) words →
  Forall fits lines → (current = [] ∨ fits current) →
  words !! i = Some w → piece_ok w →
  place fuel max_lines allow words i lines current w = Return (Some l) →
  Forall fits l.
Proof.
  intros IH Hne Hlines Hcur Hw Hpiece. unfold place.
  destruct (Qle_bool _ max_width) eqn:Htest.
  - apply IH; [done|done|by right].
  - destruct (max_lines <=? _)%Z; [done|].
    destruct current as [|c cs]; simpl in Htest.
    + destruct Hpiece as [Hfit|[ch ->]]; [unfold fits in Hfit; congruence|].
      intros Hloop. eapply wrap_loop_stuck in Hloop; [done|done|].
      unfold Qgtb. by rewrite Htest.
    + apply IH; [done| |by left]. apply Forall_app. split; [done|].
      constructor; [|done]. by destruct Hcur.
Qed.

(** Every line of a successful wrap passed the width test. *)
Lemma wrap_loop_widths fuel max_lines allow words i lines current l :
  Forall (λ w, w ≠ []) words →
  Forall fits lines → (current = [] ∨ fits current) →
  loop fuel max_lines allow words i lines current = Return (Some l) →
  Forall fits l.
Proof.
  revert words i lines current l.
  induction fuel as [|fuel IH]; intros words i lines current l Hne Hlines Hcur; [done|].
  rewrite wrap_loop_unfold. case_bool_decide as Hi.
  - destruct (lookup_lt_is_Some_2 words i Hi) as [w Hw]. rewrite Hw.
    assert (w ≠ []) as Hwne by (eapply Forall_lookup_1 in Hne; eauto).
    destruct (Qgtb _ _) eqn:Hgt.
    + destruct allow; simpl; [|done].
      set (pieces := break_long_word w font_name size max_width).
      pose proof (break_long_word_piece_ok w) as Hok.
      pose proof (break_long_word_nonempty w) as Hpne.
      pose proof (break_long_word_some w Hwne) as Hsome.
      fold pieces in Hok, Hpne, Hsome.
      rewrite (splice_lookup _ _ _ _ Hw).
      destruct pieces as [|p ps] eqn:Hp; [done|]. simpl.
      change (take i words ++ p :: ps ++ drop (S i) words)
        with (take i words ++ (p :: ps) ++ drop (S i) words).
      eapply place_widths; eauto.
      * apply Forall_app. split; [by apply Forall_take|].
        apply Forall_app. split; [done|by apply Forall_drop].
      * by rewrite (splice_lookup _ _ _ _ Hw).
      * by apply Forall_cons_1 in Hok as [? _].
    + eapply place_widths; eauto. left.
      unfold fits. unfold Qgtb in Hgt. by apply negb_false_iff in Hgt.
  - intros [= Hl]. case_match; [|done]. injection Hl as <-.
    destruct current as [|c cs]; simpl; [done|].
    apply Forall_app. split; [done|]. constructor; [|done]. by destruct Hcur.
Qed.

(** A wrap that succeeds within a line budget succeeds, with the same lines,
    within any larger one. *)
Lemma wrap_loop_lines_mono fuel max_lines max_lines' allow words i lines current l :
  (max_lines' ≤ max_lines)%Z →
  loop fuel max_lines' allow words i lines current = Return (Some l) →
  loop fuel max_lines allow words i lines current = Return (Some l).
Proof.
  intros Hle. revert words i lines current.
  induction fuel as [|fuel IH]; intros words i lines current; [done|].
  rewrite !wrap_loop_unfold. unfold place.
  intros H.
  repeat case_match; simplify_eq; eauto;
    repeat match goal with
           | H : (_ <=? _)%Z = true |- _ => apply Z.leb_le in H
           | H : (_ <=? _)%Z = false |- _ => apply Z.leb_gt in H
           end; try lia.
Qed.

End wrapping.

(** ** [wrap_lines] *)

Arguments wrap_loop : simpl never.

Section wrap_lines_facts.
Context `{M : PdfMetrics}.

(** [wrap_lines] always returns: no exception, no endless loop. *)
Lemma wrap_lines_returns text font_name size max_width max_lines allow :
  ∃ r, wrap_lines text font_name size max_width max_lines allow = Return r.
Proof.
  unfold wrap_lines. destruct (nonempty (normalize_ws text)) eqn:Hne; simpl; [|by eauto].
  apply wrap_loop_returns.
  - eapply Forall_impl; [by apply normalize_ws_words|]. by intros w [? _].
  - unfold budget, wrap_fuel. rewrite drop_0. simpl. lia.
Qed.

Lemma wrap_lines_lines_mono text font_name size max_width max_lines max_lines' allow l :
  (max_lines' ≤ max_lines)%Z →
  wrap_lines text font_name size max_width max_lines' allow = Return (Some l) →
  wrap_lines text font_name size max_width max_lines allow = Return (Some l).
Proof.
  unfold wrap_lines. intros Hle.
  destruct (nonempty (normalize_ws text)); simpl; [|done].
  intros H. apply wrap_loop_lines_mono with (max_lines' := max_lines'); [done|].
  eapply wrap_loop_fuel_mono; [exact H|]. unfold wrap_fuel. lia.
Qed.

End wrap_lines_facts.

(** ** Blocks and descending scans *)

Lemma range_desc_nil (hi lo : Z) : (hi < lo)%Z → range_desc hi lo = [].
Proof. intros H. unfold range_desc. by replace (Z.to_nat (hi - lo + 1)) with 0 by lia. Qed.

Lemma range_desc_cons (hi lo : Z) :
  (lo ≤ hi)%Z → range_desc hi lo = hi :: range_desc (hi - 1) lo.
Proof.
  intros H. unfold range_desc.
  replace (Z.to_nat (hi - lo + 1)) with (S (Z.to_nat (hi - 1 - lo + 1))) by lia.
  simpl. f_equal; [lia|].
  rewrite <- fmap_S_seq, <- list_fmap_compose.
  apply list_fmap_ext. intros _ k _. simpl. lia.
Qed.

(** A descending scan whose body either falls through or returns stops at
    the largest value where the body returns. *)
Lemma scan_range {R} (body : Z → exec R) (hi lo : Z) :
  (∀ s, body s = Next ∨ ∃ r, body s = Return r) →
  (for_each (range_desc hi lo) body = Next ∧ ∀ s, (lo ≤ s ≤ hi)%Z → body s = Next) ∨
  (∃ s r, (lo ≤ s ≤ hi)%Z ∧ body s = Return r ∧
          (∀ s', (s < s' ≤ hi)%Z → body s' = Next) ∧
          for_each (range_desc hi lo) body = Return r).
Proof.
  intros Hbody.
  remember (Z.to_nat (hi - lo + 1)) as n eqn:Hn. revert hi Hn.
  induction n as [|n IH]; intros hi Hn.
  - left. rewrite range_desc_nil by lia. split; [done|]. intros s Hs. lia.
  - rewrite range_desc_cons by lia. simpl.
    destruct (Hbody hi) as [Hhi|[r Hhi]]; rewrite Hhi; simpl.
    + destruct (IH (hi - 1)%Z ltac:(lia)) as [[Hall Hnext]|(s & r & Hs & Hr & Hbig & Hres)].
      * left. split; [done|]. intros s Hs.
        destruct (decide (s = hi)) as [->|]; [done|]. apply Hnext. lia.
      * right. exists s, r. repeat split; try done; try lia.
        intros s' Hs'. destruct (decide (s' = hi)) as [->|]; [done|]. apply Hbig. lia.
    + right. exists hi, r. repeat split; try done; lia.
Qed.


(** ** The fitters, case by case *)

Section fitters.
Context `{M : PdfMetrics}.
Variables (text font_name : str) (max_size min_size : Z).
Variables (max_width : Q) (max_lines : Z) (allow : bool).

Local Abbreviation wrap_at t s := (wrap_lines t font_name s max_width max_lines allow).

(** [wrap_lines] at size [s] gives nothing usable. *)
Definition falsy_at (t : str) (s : Z) : Prop :=
  ∃ r, wrap_at t s = Return r ∧ truthy r = false.

Lemma truthy_some (r : option (list str)) :
  truthy r = true → r = Some (unwrap r) ∧ unwrap r ≠ [].
Proof. destruct r as [[|l ls]|]; simpl; try done. Qed.


(** [fit_text] returns either the largest size of the range at which the
    text wraps, with those lines, or the minimum size with the fallback
    lines. *)
Lemma fit_text_cases :
  ∃ s l,
    fit_text text font_name max_size min_size max_width max_lines allow = Return (s, l) ∧
    (((min_size ≤ s ≤ max_size)%Z ∧ wrap_at text s = Return (Some l) ∧ l ≠ [] ∧
      ∀ s', (s < s' ≤ max_size)%Z → falsy_at text s') ∨
     (s = min_size ∧ (∀ s', (min_size ≤ s' ≤ max_size)%Z → falsy_at text s') ∧
      ∃ r, wrap_at text min_size = Return r ∧ l = or_else r [ellipsis_line text])).
Proof.
  unfold fit_text.
  set (body := λ size : Z, call (wrap_at text size) _).
  assert (∀ s, (body s = Next ∧ falsy_at text s) ∨
               (∃ l, body s = Return (s, l) ∧ wrap_at text s = Return (Some l) ∧ l ≠ []))
    as Hbody.
  { intros s. unfold body. destruct (wrap_lines_returns text font_name s max_width max_lines allow)
      as [r Hr]. rewrite Hr. simpl. destruct (truthy r) eqn:Ht.
    - right. apply truthy_some in Ht as [Hsome Hne]. exists (unwrap r).
      by rewrite <- Hsome.
    - left. split; [done|]. by exists r. }
  destruct (scan_range body max_size min_size) as [[Hnext Hall]|(s & r & Hs & Hr & Hbig & Hres)].
  { intros s. destruct (Hbody s) as [[? _]|(l & ? & _)]; eauto. }
  - rewrite Hnext. simpl.
    destruct (wrap_lines_returns text font_name min_size max_width max_lines allow) as [r Hr].
    rewrite Hr. simpl. eexists _, _. split; [done|]. right.
    split; [done|]. split; [|by eauto].
    intros s' Hs'. destruct (Hbody s') as [[_ ?]|(l & Hl & _)]; [done|].
    rewrite (Hall s' Hs') in Hl. done.
  - rewrite Hres. simpl.
    destruct (Hbody s) as [[Hn _]|(l & Hl & Hw & Hne)]; [congruence|].
    rewrite Hr in Hl. injection Hl as ->.
    exists s, l. split; [done|]. left. repeat split; try done; try lia.
    intros s' Hs'. destruct (Hbody s') as [[_ ?]|(l' & Hl' & _)]; [done|].
    rewrite (Hbig s' Hs') in Hl'. done.
Qed.

Variables (max_height line_height : Q).

(** At size [s] the text does not wrap, or the wrapped block is too high. *)
Definition too_high_at (s : Z) : Prop :=
  ∃ r, wrap_at text s = Return r ∧
       (truthy r = false ∨ ¬ (block_height s line_height (unwrap r) <= max_height)%Q).

Lemma fit_text_in_box_cases :
  ∃ s l,
    fit_text_in_box text font_name max_size min_size max_width max_lines
      max_height line_height allow = Return (s, l) ∧
    (((min_size ≤ s ≤ max_size)%Z ∧ wrap_at text s = Return (Some l) ∧ l ≠ [] ∧
      (block_height s line_height l <= max_height)%Q ∧
      ∀ s', (s < s' ≤ max_size)%Z → too_high_at s') ∨
     (s = min_size ∧ (∀ s', (min_size ≤ s' ≤ max_size)%Z → too_high_at s') ∧
      ∃ r, wrap_at text min_size = Return r ∧ l = or_else r [ellipsis_line text])).
Proof.
  unfold fit_text_in_box.
  set (body := λ size : Z, call (wrap_at text size) _).
  assert (∀ s, (body s = Next ∧ too_high_at s) ∨
               (∃ l, body s = Return (s, l) ∧ wrap_at text s = Return (Some l) ∧ l ≠ [] ∧
                     (block_height s line_height l <= max_height)%Q))
    as Hbody.
  { intros s. unfold body. destruct (wrap_lines_returns text font_name s max_width max_lines allow)
      as [r Hr]. rewrite Hr. simpl. destruct (truthy r) eqn:Ht; simpl.
    - destruct (Qle_bool _ max_height) eqn:Hh.
      + right. apply truthy_some in Ht as [Hsome Hne]. exists (unwrap r).
        rewrite <- Hsome. repeat split; try done. by apply Qle_bool_iff.
      + left. split; [done|]. exists r. split; [done|]. right.
        rewrite <- Qle_bool_iff. congruence.
    - left. split; [done|]. exists r. by auto. }
  destruct (scan_range body max_size min_size) as [[Hnext Hall]|(s & r & Hs & Hr & Hbig & Hres)].
  { intros s. destruct (Hbody s) as [[? _]|(l & ? & _)]; eauto. }
  - rewrite Hnext. simpl.
    destruct (wrap_lines_returns text font_name min_size max_width max_lines allow) as [r Hr].
    rewrite Hr. simpl. eexists _, _. split; [done|]. right.
    split; [done|]. split; [|by eauto].
    intros s' Hs'. destruct (Hbody s') as [[_ ?]|(l & Hl & _)]; [done|].
    rewrite (Hall s' Hs') in Hl. done.
  - rewrite Hres. simpl.
    destruct (Hbody s) as [[Hn _]|(l & Hl & Hw & Hne & Hh)]; [congruence|].
    rewrite Hr in Hl. injection Hl as ->.
    exists s, l. split; [done|]. left. repeat split; try done; try lia.
    intros s' Hs'. destruct (Hbody s') as [[_ ?]|(l' & Hl' & _)]; [done|].
    rewrite (Hbig s' Hs') in Hl'. done.
Qed.

End fitters.

Section baseline_fitter.
Context `{M : PdfMetrics}.
Variables (text font_name : str) (max_size min_size : Z).
Variables (max_width : Q) (max_lines : Z) (allow : bool).
Variables (y_top y_line clearance line_height : Q).

Local Abbreviation wrap_at s :=
  (wrap_lines (normalize_ws text) font_name s max_width max_lines allow).

(** The baseline that puts the lowest glyph edge [clearance] above the
    guide line. *)
Definition anchored (s : Z) : Q := (y_line + clearance + descent_of font_name s)%Q.

(** At size [s] the text does not wrap, or its top edge crosses [y_top]. *)
Definition too_tall_at (s : Z) : Prop :=
  ∃ r, wrap_at s = Return r ∧
       (truthy r = false ∨
        ¬ (top_glyph_of font_name s line_height (unwrap r) (anchored s) <= y_top)%Q).

Lemma fit_text_above_line_cases :
  nonempty (normalize_ws text) = true →
  ∃ s l y,
    fit_text_above_line text font_name max_size min_size max_width max_lines
      y_top y_line clearance line_height allow = Return (s, l, y) ∧
    (((min_size ≤ s ≤ max_size)%Z ∧ wrap_at s = Return (Some l) ∧ l ≠ [] ∧
      y = anchored s ∧ (top_glyph_of font_name s line_height l y <= y_top)%Q ∧
      ∀ s', (s < s' ≤ max_size)%Z → too_tall_at s') ∨
     (s = min_size ∧ (∀ s', (min_size ≤ s' ≤ max_size)%Z → too_tall_at s') ∧
      ∃ r, wrap_at min_size = Return r ∧ l = or_else r [normalize_ws text] ∧
           let top := top_glyph_of font_name s line_height l (anchored s) in
           ((top <= y_top)%Q ∧ y = anchored s) ∨
           (¬ (top <= y_top)%Q ∧ y = (anchored s - (top - y_top))%Q))).
Proof.
  intros Hne. unfold fit_text_above_line. rewrite Hne. simpl.
  set (body := λ size : Z, call (wrap_at size) _).
  assert (∀ s, (body s = Next ∧ too_tall_at s) ∨
               (∃ l, body s = Return (s, l, anchored s) ∧ wrap_at s = Return (Some l) ∧
                     l ≠ [] ∧
                     (top_glyph_of font_name s line_height l (anchored s) <= y_top)%Q))
    as Hbody.
  { intros s. unfold body.
    destruct (wrap_lines_returns (normalize_ws text) font_name s max_width max_lines allow)
      as [r Hr]. rewrite Hr. simpl. destruct (truthy r) eqn:Ht; simpl.
    - fold (anchored s). destruct (Qle_bool _ y_top) eqn:Hh.
      + right. apply truthy_some in Ht as [Hsome Hnil]. exists (unwrap r).
        rewrite <- Hsome. repeat split; try done. by apply Qle_bool_iff.
      + left. split; [done|]. exists r. split; [done|]. right.
        rewrite <- Qle_bool_iff. congruence.
    - left. split; [done|]. exists r. by auto. }
  destruct (scan_range body max_size min_size) as [[Hnext Hall]|(s & r & Hs & Hr & Hbig & Hres)].
  { intros s. destruct (Hbody s) as [[? _]|(l & ? & _)]; eauto. }
  - rewrite Hnext. simpl.
    destruct (wrap_lines_returns (normalize_ws text) font_name min_size max_width max_lines allow)
      as [r Hr].
    rewrite Hr. simpl. fold (anchored min_size).
    assert (∀ s', (min_size ≤ s' ≤ max_size)%Z → too_tall_at s') as Htall.
    { intros s' Hs'. destruct (Hbody s') as [[_ ?]|(l & Hl & _)]; [done|].
      rewrite (Hall s' Hs') in Hl. done. }
    unfold Qgtb. destruct (Qle_bool _ y_top) eqn:Hh; simpl.
    + eexists _, _, _. split; [done|]. right. split; [done|]. split; [done|].
      exists r. split; [done|]. split; [done|]. left. split; [|done].
      by apply Qle_bool_iff.
    + eexists _, _, _. split; [done|]. right. split; [done|]. split; [done|].
      exists r. split; [done|]. split; [done|]. right. split; [|done].
      rewrite <- Qle_bool_iff. congruence.
  - rewrite Hres. simpl.
    destruct (Hbody s) as [[Hn _]|(l & Hl & Hw & Hnil & Hh)]; [congruence|].
    rewrite Hr in Hl. injection Hl as ->.
    exists s, l, (anchored s). split; [done|]. left. repeat split; try done; try lia.
    intros s' Hs'. destruct (Hbody s') as [[_ ?]|(l' & Hl' & _)]; [done|].
    rewrite (Hbig s' Hs') in Hl'. done.
Qed.

Lemma fit_text_above_line_empty :
  nonempty (normalize_ws text) = false →
  fit_text_above_line text font_name max_size min_size max_width max_lines
    y_top y_line clearance line_height allow
  = Return (min_size, [[]], (y_line + clearance)%Q).
Proof. intros Hne. unfold fit_text_above_line. by rewrite Hne. Qed.

End baseline_fitter.

(** ** The truncated last-resort line *)

Lemma ellipsis_line_eq (text : str) :
  ellipsis_line text = take 20 (strip text) ++ [ELLIPSIS].
Proof.
  unfold ellipsis_line. apply strip_id.
  - intros c Hc. pose proof (strip_starts_ok text) as Hs.
    destruct (strip text) as [|c0 t]; simpl in *; [by injection Hc as <-|].
    injection Hc as <-. by apply Hs.
  - intros c. rewrite last_snoc. by intros [= <-].
Qed.


(** ** Claims about the layout engine *)

(** C3: whenever [wrap_lines] returns a list of lines rather than [None],
    the list has at most [max_lines] lines and every line, measured with
    [text_width] at that font and size, is at most [max_width] wide; this
    covers the lines built from the pieces of [break_long_word].  It holds
    for every metric. *)
Theorem wrap_lines_within_bounds `{M : PdfMetrics} (text font_name : str) (size : Z)
    (max_width : Q) (max_lines : Z) (allow_word_break : bool) (lines : list str) :
  wrap_lines text font_name size max_width max_lines allow_word_break = Return (Some lines) →
  (Z.of_nat (length lines) ≤ max_lines)%Z ∧
  Forall (λ line, (text_width font_name size line <= max_width)%Q) lines.
Proof.
  unfold wrap_lines. destruct (nonempty (normalize_ws text)) eqn:Hne; simpl; [|done].
  intros H. split.
  - by eapply wrap_loop_count.
  - eapply Forall_impl.
    + eapply wrap_loop_widths; [| | |exact H]; [|done|by left].
      eapply Forall_impl; [by apply normalize_ws_words|]. by intros w [? _].
    + intros line Hline. by apply Qle_bool_iff.
Qed.

Lemma wrap_lines_within_bounds_witness :
  (Z.of_nat (length [lit "iiiiii iii"; lit "W i"]) ≤ 2)%Z ∧
  Forall (λ line, (@text_width demo_metrics [] 2 line <= 20)%Q)
    [lit "iiiiii iii"; lit "W i"].
Proof.
  apply (@wrap_lines_within_bounds demo_metrics (lit "iiiiii iiiW i") [] 2 20 2 true).
  vm_compute. reflexivity.
Defined.

(** C5: with [min_size <= max_size], each of [fit_text], [fit_text_in_box]
    and [fit_text_above_line] returns a size [s] with
    [min_size <= s <= max_size], on the scan and on the fallback paths. *)
Theorem fitters_size_in_range `{M : PdfMetrics} (text font_name : str)
    (max_size min_size : Z) (max_width : Q) (max_lines : Z) (allow_word_break : bool)
    (max_height line_height y_top y_line clearance : Q) :
  (min_size ≤ max_size)%Z →
  (∃ s l, fit_text text font_name max_size min_size max_width max_lines allow_word_break
            = Return (s, l) ∧ (min_size ≤ s ≤ max_size)%Z) ∧
  (∃ s l, fit_text_in_box text font_name max_size min_size max_width max_lines
            max_height line_height allow_word_break
            = Return (s, l) ∧ (min_size ≤ s ≤ max_size)%Z) ∧
  (∃ s l y, fit_text_above_line text font_name max_size min_size max_width max_lines
              y_top y_line clearance line_height allow_word_break
              = Return (s, l, y) ∧ (min_size ≤ s ≤ max_size)%Z).
Proof.
  intros Hle. split; [|split].
  - destruct (fit_text_cases text font_name max_size min_size max_width max_lines
                allow_word_break) as (s & l & Hfit & [(Hs & _)|(-> & _)]);
      exists s, l || exists min_size, l; split; try done; lia.
  - destruct (fit_text_in_box_cases text font_name max_size min_size max_width max_lines
                allow_word_break max_height line_height)
      as (s & l & Hfit & [(Hs & _)|(-> & _)]);
      exists s, l || exists min_size, l; split; try done; lia.
  - destruct (nonempty (normalize_ws text)) eqn:Hne.
    + destruct (fit_text_above_line_cases text font_name max_size min_size max_width
                  max_lines allow_word_break y_top y_line clearance line_height Hne)
        as (s & l & y & Hfit & [(Hs & _)|(-> & _)]);
        exists s, l, y || exists min_size, l, y; split; try done; lia.
    + eexists _, _, _. split; [by apply fit_text_above_line_empty|]. lia.
Qed.

Lemma fitters_size_in_range_witness :
  (∃ s l, @fit_text demo_metrics (lit "iiiiii iiiW i") [] 2 1 22 2 true
            = Return (s, l) ∧ (1 ≤ s ≤ 2)%Z) ∧
  (∃ s l, @fit_text_in_box demo_metrics (lit "iiiiii iiiW i") [] 2 1 22 2 1 1 true
            = Return (s, l) ∧ (1 ≤ s ≤ 2)%Z) ∧
  (∃ s l y, @fit_text_above_line demo_metrics (lit "iiiiii iiiW i") [] 2 1 22 2
              10 5 1 1 true
              = Return (s, l, y) ∧ (1 ≤ s ≤ 2)%Z).
Proof.
  apply (@fitters_size_in_range demo_metrics). lia.
Defined.



(** C9: the statements of [fit_text] after its first top-level [return]
    (the second re-wrap at the minimum size and its truncation) are never
    reached: for every input [fit_text] equals the function without them. *)
Theorem fit_text_trailing_block_dead `{M : PdfMetrics} (text font_name : str)
    (max_size min_size : Z) (max_width : Q) (max_lines : Z) (allow_word_break : bool) :
  fit_text text font_name max_size min_size max_width max_lines allow_word_break =
  fit_text_single_fallback text font_name max_size min_size max_width max_lines
    allow_word_break.
Proof.
  unfold fit_text, fit_text_single_fallback.
  destruct (for_each _ _); simpl; try done.
  by destruct (wrap_lines text font_name min_size max_width max_lines allow_word_break).
Qed.

(** C8: price tiers with inclusive upper bounds: "A" exactly when
    [price <= 20], "A+" exactly when [20 < price <= 35], "A++" exactly when
    [35 < price <= 55], the top tier exactly when [price > 55]; in
    particular 20, 21, 35, 36, 55 and 56 give "A", "A+", "A+", "A++", "A++"
    and the top tier. *)
Theorem category_from_price_tiers (price : Z) :
  (category_from_price price = TIER_A ↔ (price ≤ 20)%Z) ∧
  (category_from_price price = TIER_A_PLUS ↔ (20 < price ≤ 35)%Z) ∧
  (category_from_price price = TIER_A_PLUS_PLUS ↔ (35 < price ≤ 55)%Z) ∧
  (category_from_price price = TIER_PREMIUM ↔ (55 < price)%Z) ∧
  category_from_price 20 = TIER_A ∧ category_from_price 21 = TIER_A_PLUS ∧
  category_from_price 35 = TIER_A_PLUS ∧ category_from_price 36 = TIER_A_PLUS_PLUS ∧
  category_from_price 55 = TIER_A_PLUS_PLUS ∧ category_from_price 56 = TIER_PREMIUM.
Proof.
  unfold category_from_price.
  destruct (Z.leb_spec price 20), (Z.leb_spec price 35), (Z.leb_spec price 55);
    repeat split; intros; try done; try lia.
Qed.







(** ** The access list *)

Lemma apply_ops_admin_ids (self : AccessManager) (ops : list access_op) :
  admin_ids (apply_ops self ops) = admin_ids self.
Proof.
  revert self. induction ops as [|op ops IH]; intros self; [done|].
  unfold apply_ops in *. simpl. rewrite IH.
  destruct op; simpl; unfold add_user, del_user; by case_bool_decide.
Qed.

(** C10: for every [AccessManager], every id [a] in [admin_ids] and every
    sequence of [add_user] and [del_user] calls from any state,
    [is_allowed(a)] is true in the state reached ([del_user] never takes an
    administrator's access away), and [add_user(a)] there leaves
    [allowed_ids] unchanged. *)
Theorem admin_always_allowed (self : AccessManager) (a : Z) (ops : list access_op) :
  a ∈ admin_ids self →
  is_allowed (apply_ops self ops) a = true ∧
  allowed_ids (add_user (apply_ops self ops) a) = allowed_ids (apply_ops self ops).
Proof.
  intros Ha. pose proof (apply_ops_admin_ids self ops) as Hadm. split.
  - unfold is_allowed, is_admin. rewrite Hadm.
    by rewrite bool_decide_eq_true_2.
  - unfold add_user. rewrite Hadm. by rewrite bool_decide_eq_false_2 by auto.
Qed.

Lemma admin_always_allowed_witness :
  is_allowed (apply_ops demo_access [DelUser 1; AddUser 1; DelUser 2; DelUser 1]) 1 = true ∧
  allowed_ids (add_user (apply_ops demo_access [DelUser 1; AddUser 1; DelUser 2; DelUser 1]) 1)
  = allowed_ids (apply_ops demo_access [DelUser 1; AddUser 1; DelUser 2; DelUser 1]).
Proof.
  apply (admin_always_allowed demo_access 1 [DelUser 1; AddUser 1; DelUser 2; DelUser 1]).
  simpl. by apply elem_of_singleton_2.
Defined.

(** ** The tips dialogue *)


Lemma length_check (s : str) (n : nat) :
  negb (nonempty s) || (n <? length s) = false ↔ 1 ≤ length s ≤ n.
Proof.
  rewrite orb_false_iff, negb_false_iff, Nat.ltb_ge.
  destruct s; simpl; split; intros; try split; try done; lia.
Qed.








(** ** Wrapping without character breaks is a greedy fill *)

Section greedy.
Context `{M : PdfMetrics}.
Variables (font_name : str) (size : Z).

(** [wrap_lines] with [allow_word_break=False], by recursion on the words
    still to place: a word that does not fit the current line closes it and
    opens the next one. *)
Fixpoint greedy (max_width : Q) (max_lines : Z) (ws : list str) (lines : list str)
    (current : str) : option (list str) :=
  match ws with
  | [] =>
      let lines' := if nonempty current then lines ++ [current] else lines in
      if (Z.of_nat (length lines') <=? max_lines)%Z then Some lines' else None
  | w :: ws' =>
      if Qgtb (text_width font_name size w) max_width then None
      else
        let test := if nonempty current then strip (current ++ [SPACE] ++ w) else w in
        if Qle_bool (text_width font_name size test) max_width
        then greedy max_width max_lines ws' lines test
        else if (max_lines <=? Z.of_nat (length (lines ++ [current])))%Z then None
        else greedy max_width max_lines ws' (lines ++ [current]) w
  end.

Lemma greedy_cons max_width max_lines w ws lines current :
  greedy max_width max_lines (w :: ws) lines current =
  if Qgtb (text_width font_name size w) max_width then None
  else
    let test := if nonempty current then strip (current ++ [SPACE] ++ w) else w in
    if Qle_bool (text_width font_name size test) max_width
    then greedy max_width max_lines ws lines test
    else if (max_lines <=? Z.of_nat (length (lines ++ [current])))%Z then None
    else greedy max_width max_lines ws (lines ++ [current]) w.
Proof. reflexivity. Qed.

Lemma wrap_loop_greedy max_width max_lines fuel words i lines current r :
  wrap_loop fuel font_name size max_width max_lines false words i lines current = Return r →
  r = greedy max_width max_lines (drop i words) lines current.
Proof.
  revert words i lines current.
  induction fuel as [|fuel IH]; intros words i lines current H; [done|].
  rewrite wrap_loop_unfold in H. case_bool_decide as Hi.
  - destruct (lookup_lt_is_Some_2 words i Hi) as [w Hw]. rewrite Hw in H.
    rewrite (drop_S _ _ _ Hw). simpl.
    destruct (Qgtb _ _) eqn:Hgt; simpl in H; [by injection H|].
    unfold place in H. destruct (Qle_bool _ _); [by apply IH|].
    destruct (max_lines <=? _)%Z; [by injection H|].
    destruct fuel as [|fuel']; [done|].
    rewrite wrap_loop_unfold, bool_decide_eq_true_2, Hw, Hgt in H by done.
    unfold place in H. simpl in H.
    unfold Qgtb in Hgt. apply negb_false_iff in Hgt. rewrite Hgt in H.
    apply IH. eapply wrap_loop_fuel_mono; [exact H|lia].
  - rewrite drop_ge by lia. simpl. by injection H.
Qed.

(** No whitespace at either end. *)
Definition clean (s : str) : Prop := starts_ok s ∧ ends_ok s.

Lemma is_word_clean (w : str) : is_word w → clean w.
Proof.
  intros [_ Hw]. split; intros c Hc.
  - destruct w as [|c0 w]; [done|]. injection Hc as <-. by apply Forall_cons_1 in Hw as [? _].
  - rewrite Forall_forall in Hw. apply Hw. rewrite last_lookup in Hc.
    by eapply list_elem_of_lookup_2.
Qed.

Lemma join_clean (current w : str) :
  current ≠ [] → clean current → is_word w →
  strip (current ++ [SPACE] ++ w) = current ++ [SPACE] ++ w ∧
  clean (current ++ [SPACE] ++ w).
Proof.
  intros Hne [Hs _] Hw. pose proof (is_word_clean w Hw) as [_ He].
  destruct Hw as [Hwne _].
  assert (clean (current ++ [SPACE] ++ w)) as Hclean.
  { split; intros c Hc.
    - apply Hs. by destruct current.
    - rewrite !last_app in Hc.
      destruct (last w) as [x|] eqn:Hl; [injection Hc as <-; by apply He|].
      by apply last_None in Hl. }
  split; [|done]. apply strip_id; apply Hclean.
Qed.

End greedy.

Lemma Qle_bool_false (a b : Q) : Qle_bool a b = false ↔ (b < a)%Q.
Proof.
  split.
  - intros H. apply Qnot_le_lt. rewrite <- Qle_bool_iff. congruence.
  - intros H. apply not_true_is_false. rewrite Qle_bool_iff. by apply Qlt_not_le.
Qed.

Lemma Qgtb_false (a b : Q) : Qgtb a b = false ↔ (a <= b)%Q.
Proof. unfold Qgtb. by rewrite negb_false_iff, Qle_bool_iff. Qed.

Section greedy_monotone.
Context `{M : PdfMetrics} `{!Additive M}.
Variables (font_name : str) (size : Z).
Variables (max_width max_width' : Q) (max_lines max_lines' : Z).
Hypothesis size_nonneg : (0 ≤ size)%Z.
Hypothesis narrower : (max_width' <= max_width)%Q.
Hypothesis fewer : (max_lines' ≤ max_lines)%Z.

Local Abbreviation W s := (text_width font_name size s).
Local Abbreviation fill := (greedy font_name size).

Lemma width_join (current w : str) :
  (W (current ++ [SPACE] ++ w) == W current + W [SPACE] + W w)%Q.
Proof.
  unfold text_width.
  pose proof (width_app font_name size current ([SPACE] ++ w)).
  pose proof (width_app font_name size [SPACE] w).
  lra.
Qed.

Lemma width_pos (s : str) : (0 <= W s)%Q.
Proof. by apply width_nonneg. Qed.

(** With a non-empty current line the result has more lines than are
    already closed, and no more than the budget. *)
Lemma greedy_count mw ml ws lines current l :
  Forall is_word ws → current ≠ [] → clean current →
  fill mw ml ws lines current = Some l →
  S (length lines) ≤ length l ∧ (Z.of_nat (length l) ≤ ml)%Z.
Proof.
  intros Hws. revert lines current.
  induction Hws as [|w ws Hw Hws IH]; intros lines current Hne Hc.
  - simpl. destruct current as [|c cs]; [done|]. simpl.
    destruct (Z.leb_spec (Z.of_nat (length (lines ++ [c :: cs]))) ml); [|done].
    intros [= <-]. rewrite length_app in *. simpl in *. lia.
  - rewrite greedy_cons. destruct (Qgtb _ _); [done|].
    destruct (join_clean current w Hne Hc Hw) as [Hj Hjc].
    replace (nonempty current) with true by (by destruct current). cbv zeta. rewrite Hj.
    destruct (Qle_bool _ _).
    + apply IH; [by destruct current|done].
    + destruct (ml <=? _)%Z; [done|]. intros Hl.
      apply IH in Hl; [|by destruct Hw|by apply is_word_clean].
      rewrite length_app in Hl. simpl in Hl. lia.
Qed.

(** The wide run is ahead of the narrow one: it has closed fewer lines, or
    as many with a current line that is no wider. *)
Definition ahead (current current' : str) (n n' : nat) : Prop :=
  (current = [] ∧ current' = [] ∧ n = n') ∨
  (current ≠ [] ∧ current' ≠ [] ∧ (n < n' ∨ (n = n' ∧ (W current <= W current')%Q))).

Lemma greedy_mono ws :
  Forall is_word ws →
  ∀ lines current lines' current' l',
    clean current → clean current' →
    ahead current current' (length lines) (length lines') →
    fill max_width' max_lines' ws lines' current' = Some l' →
    ∃ l, fill max_width max_lines ws lines current = Some l.
Proof.
  induction 1 as [|w ws Hw Hws IH]; intros lines current lines' current' l' Hc Hc' Hah Hn.
  - simpl in *. destruct Hah as [(-> & -> & Hlen)|(Hcur & Hcur' & Hlen)]; simpl in *.
    + destruct (Z.leb_spec (Z.of_nat (length lines')) max_lines'); [|done].
      destruct (Z.leb_spec (Z.of_nat (length lines)) max_lines); [by eauto|lia].
    + destruct current as [|c cs]; [done|]. destruct current' as [|c' cs']; [done|].
      simpl in *.
      destruct (Z.leb_spec (Z.of_nat (length (lines' ++ [c' :: cs']))) max_lines'); [|done].
      destruct (Z.leb_spec (Z.of_nat (length (lines ++ [c :: cs]))) max_lines); [by eauto|].
      rewrite !length_app in *. simpl in *. lia.
  - rewrite greedy_cons in Hn |- *.
    destruct (Qgtb (W w) max_width') eqn:Hg'; [done|]. apply Qgtb_false in Hg'.
    assert (Qgtb (W w) max_width = false) as Hg by (apply Qgtb_false; lra). rewrite Hg.
    pose proof (is_word_clean w Hw) as Hwc.
    assert (w ≠ []) as Hwne by (by destruct Hw).
    cbv zeta in Hn |- *.
    destruct Hah as [(-> & -> & Hlen)|(Hcur & Hcur' & Hlen)].
    + cbn [nonempty] in Hn |- *. rewrite (proj2 (Qle_bool_iff _ _) Hg') in Hn.
      rewrite (proj2 (Qle_bool_iff (W w) max_width)) by lra.
      eapply IH; [| |  |exact Hn]; try done.
      right. repeat split; try done. right. split; [done|lra].
    + destruct (join_clean current w Hcur Hc Hw) as [Hj Hjc].
      destruct (join_clean current' w Hcur' Hc' Hw) as [Hj' Hjc'].
      replace (nonempty current) with true by (by destruct current).
      replace (nonempty current') with true in Hn by (by destruct current').
      rewrite Hj. rewrite Hj' in Hn.
      pose proof (width_join current w) as Hwj.
      pose proof (width_join current' w) as Hwj'.
      pose proof (width_pos [SPACE]) as Hsp.
      pose proof (width_pos current') as Hcp.
      assert (current ++ [SPACE] ++ w ≠ []) as Hjne by (by destruct current).
      assert (current' ++ [SPACE] ++ w ≠ []) as Hjne' by (by destruct current').
      destruct (Qle_bool (W (current' ++ [SPACE] ++ w)) max_width') eqn:Hf';
        destruct (Qle_bool (W (current ++ [SPACE] ++ w)) max_width) eqn:Hf.
      * eapply IH; [| | |exact Hn]; try done.
        right. repeat split; try done.
        destruct Hlen as [?|[? ?]]; [by left|right; split; [done|lra]].
      * apply Qle_bool_iff in Hf'. apply Qle_bool_false in Hf.
        pose proof (greedy_count _ _ _ _ _ _ Hws Hjne' Hjc' Hn) as [Hlow Hup].
        assert (length lines < length lines') as Hlt.
        { destruct Hlen as [?|[? ?]]; [done|lra]. }
        rewrite (proj2 (Z.leb_gt _ _)) by (rewrite length_app; simpl; lia).
        eapply IH; [| | |exact Hn]; try done.
        right. repeat split; try done. rewrite length_app; cbn [length].
        destruct (decide (length lines + 1 = length lines')); [right; split; [done|lra]|left; lia].
      * destruct (max_lines' <=? _)%Z eqn:Hchk; [done|].
        eapply IH; [| | |exact Hn]; try done.
        right. repeat split; try done. left. rewrite length_app; cbn [length].
        destruct Hlen as [?|[? ?]]; lia.
      * destruct (max_lines' <=? _)%Z eqn:Hchk; [done|]. apply Z.leb_gt in Hchk.
        rewrite length_app in Hchk; cbn [length] in Hchk.
        rewrite (proj2 (Z.leb_gt _ _))
          by (rewrite length_app; simpl; destruct Hlen as [?|[? ?]]; lia).
        eapply IH; [| | |exact Hn]; try done.
        right. repeat split; try done. rewrite !length_app; cbn [length].
        destruct Hlen as [?|[? ?]]; [left; lia|right; split; [lia|lra]].
Qed.

(** Without character breaks, a wrap that succeeds under the tighter
    constraints succeeds under the looser ones. *)
Lemma wrap_lines_nobreak_mono text l' :
  wrap_lines text font_name size max_width' max_lines' false = Return (Some l') → l' ≠ [] →
  ∃ l, wrap_lines text font_name size max_width max_lines false = Return (Some l) ∧ l ≠ [].
Proof.
  intros Hn Hl'.
  destruct (wrap_lines_returns text font_name size max_width max_lines false) as [r Hr].
  unfold wrap_lines in *. destruct (nonempty (normalize_ws text)) eqn:Hne; simpl in *; [|done].
  pose proof (normalize_ws_words text Hne) as Hws.
  apply wrap_loop_greedy in Hn. apply wrap_loop_greedy in Hr as Hr'.
  rewrite drop_0 in Hn, Hr'.
  destruct (greedy_mono _ Hws [] [] [] [] l') as [l Hl]; try done.
  { by left. }
  rewrite Hl in Hr'. subst r. exists l. split; [done|].
  destruct (split_space (normalize_ws text)) as [|w ws] eqn:Hsplit.
  { simpl in Hn. destruct (_ <=? max_lines')%Z; [|done]. by injection Hn as ->. }
  rewrite greedy_cons in Hl. cbn [nonempty] in Hl. cbv zeta in Hl.
  destruct (Qgtb _ _); [done|].
  apply Forall_cons_1 in Hws as [Hw Hws].
  assert (w ≠ []) as Hwne by (by destruct Hw).
  destruct (Qle_bool _ _).
  - apply greedy_count in Hl; [|done|done|by apply is_word_clean].
    intros ->. simpl in Hl. lia.
  - destruct (max_lines <=? _)%Z; [done|].
    apply greedy_count in Hl; [|done|done|by apply is_word_clean].
    intros ->. simpl in Hl. lia.
Qed.

End greedy_monotone.

(** ** Monotonicity of the fitted size *)

Lemma advances_app (a b : str) : advances (a ++ b) = (advances a + advances b)%Z.
Proof. induction a as [|c a IH]; simpl; [done|]. rewrite IH. lia. Qed.

Lemma advances_nonneg (a : str) : (0 ≤ advances a)%Z.
Proof.
  induction a as [|c a IH]; simpl; [done|].
  unfold advance. destruct (c =? 87)%N; lia.
Qed.

#[export] Instance demo_additive : Additive demo_metrics.
Proof.
  split.
  - intros ? size a b. cbn [stringWidth demo_metrics].
    rewrite advances_app, Z.mul_add_distr_l, inject_Z_plus. reflexivity.
  - intros ? size a Hsize. cbn [stringWidth demo_metrics].
    change 0%Q with (inject_Z 0). rewrite <- Zle_Qle.
    pose proof (advances_nonneg a). nia.
Qed.

(** C4 as stated fails when character breaks are allowed: at size 2 the
    word [iiiW] is cut under the width 20, and its first piece fills the
    first line, while under the width 22 it is kept whole and needs a line of
    its own; the narrower box gets the larger size. *)
Lemma fit_text_width_monotonicity_counterexample :
  @fit_text demo_metrics (lit "iiiiii iiiW i") [] 2 1 20 2 true
  = Return (2%Z, [lit "iiiiii iii"; lit "W i"]) ∧
  @fit_text demo_metrics (lit "iiiiii iiiW i") [] 2 1 22 2 true
  = Return (1%Z, [lit "iiiiii iiiW i"]) ∧
  (20 <= 22)%Q ∧ (2 ≤ 2)%Z ∧ ¬ (2 ≤ 1)%Z.
Proof.
  split; [by vm_compute|]. split; [by vm_compute|].
  split; [by vm_compute|]. lia.
Qed.

(** C4 (amended): for fixed text, font, size range and flag, and
    [max_lines' <= max_lines]: with the same [max_width], the size
    [fit_text] returns under [max_lines'] is at most the size it returns
    under [max_lines]; the same holds with [max_width' <= max_width] when
    [allow_word_break] is false, [min_size] is not negative and the metric
    is additive.  Nothing is claimed for a smaller width with character
    breaks allowed. *)
Theorem fit_text_size_monotone `{M : PdfMetrics} (text font_name : str)
    (max_size min_size : Z) (max_width max_width' : Q) (max_lines max_lines' : Z)
    (allow_word_break : bool) :
  (max_lines' ≤ max_lines)%Z →
  max_width' = max_width ∨
  (allow_word_break = false ∧ (max_width' <= max_width)%Q ∧ (0 ≤ min_size)%Z ∧ Additive M) →
  ∃ s l s' l',
    fit_text text font_name max_size min_size max_width max_lines allow_word_break
      = Return (s, l) ∧
    fit_text text font_name max_size min_size max_width' max_lines' allow_word_break
      = Return (s', l') ∧
    (s' ≤ s)%Z.
Proof.
  intros Hml Hcase.
  assert (∀ sz l',
            (min_size ≤ sz)%Z → l' ≠ [] →
            wrap_lines text font_name sz max_width' max_lines' allow_word_break
              = Return (Some l') →
            ∃ l, wrap_lines text font_name sz max_width max_lines allow_word_break
                   = Return (Some l) ∧ l ≠ []) as Hmono.
  { intros sz l' Hsz Hl' Hw. destruct Hcase as [->|(-> & Hmw & Hmin & Hadd)].
    - exists l'. split; [|done]. by eapply wrap_lines_lines_mono.
    - eapply wrap_lines_nobreak_mono; eauto. lia. }
  destruct (fit_text_cases text font_name max_size min_size max_width max_lines
              allow_word_break) as (s & l & Hfit & Hwide).
  destruct (fit_text_cases text font_name max_size min_size max_width' max_lines'
              allow_word_break) as (s' & l' & Hfit' & Hnarrow).
  exists s, l, s', l'. split; [done|]. split; [done|].
  destruct Hnarrow as [(Hs' & Hw' & Hl' & _)|(-> & _)].
  - destruct (Hmono s' l') as (l0 & Hw0 & Hl0); [lia|done|done|].
    assert (¬ falsy_at font_name max_width max_lines allow_word_break text s') as Hnot.
    { intros (r & Hr & Ht). rewrite Hw0 in Hr. injection Hr as <-. by destruct l0. }
    destruct Hwide as [(Hs & _ & _ & Hbig)|(-> & Hall & _)].
    + destruct (decide (s' ≤ s)%Z); [done|]. exfalso. apply Hnot, Hbig. lia.
    + exfalso. by apply Hnot, Hall.
  - destruct Hwide as [(Hs & _)|(-> & _)]; lia.
Qed.

Lemma fit_text_size_monotone_witness :
  ∃ s l s' l',
    @fit_text demo_metrics (lit "iiiiii iiiW i") [] 2 1 22 2 false = Return (s, l) ∧
    @fit_text demo_metrics (lit "iiiiii iiiW i") [] 2 1 20 2 false = Return (s', l') ∧
    (s' ≤ s)%Z.
Proof.
  apply (@fit_text_size_monotone demo_metrics (lit "iiiiii iiiW i") [] 2 1 22 20 2 2 false).
  - lia.
  - right. split; [reflexivity|]. split; [by vm_compute|]. split; [lia|].
    exact demo_additive.
Defined.

(** * Further properties *)

(** ** The access list: listing, persistence, single operations *)

Lemma sorted_elements_set (X : gset Z) :
  list_to_set (merge_sort Z.le (elements X)) = X.
Proof.
  apply set_eq. intros x.
  rewrite elem_of_list_to_set, merge_sort_Permutation. apply elem_of_elements.
Qed.

(** The file holds exactly the ids of [allowed_ids]. *)
Definition in_sync (self : AccessManager) : Prop :=
  list_to_set (file self) = allowed_ids self.

Lemma save_in_sync (self : AccessManager) : in_sync (_save self).
Proof. apply sorted_elements_set. Qed.

Lemma apply_op_in_sync (self : AccessManager) (op : access_op) :
  in_sync self → in_sync (apply_op self op).
Proof.
  intros Hs. destruct op; simpl; unfold add_user, del_user;
    case_bool_decide; try done; apply save_in_sync.
Qed.

Lemma apply_ops_in_sync (self : AccessManager) (ops : list access_op) :
  in_sync self → in_sync (apply_ops self ops).
Proof.
  revert self. induction ops as [|op ops IH]; intros self Hs; [done|].
  apply IH. by apply apply_op_in_sync.
Qed.

Lemma init_in_sync (content : file_content) (admins : list Z) :
  in_sync (__init__ content admins).
Proof. destruct content; try apply save_in_sync. done. Qed.

(** X1: [list_users] is sorted in increasing order, names no id twice and
    names exactly the ids of [allowed_ids]; administrators are listed only
    if they were also added to the file. *)
Theorem list_users_exact (self : AccessManager) :
  StronglySorted Z.le (list_users self) ∧ NoDup (list_users self) ∧
  ∀ u, u ∈ list_users self ↔ u ∈ allowed_ids self.
Proof.
  unfold list_users. split; [|split].
  - apply StronglySorted_merge_sort; apply _.
  - rewrite merge_sort_Permutation. apply NoDup_elements.
  - intros u. rewrite merge_sort_Permutation. apply elem_of_elements.
Qed.

(** X2: the access list survives a restart.  After construction from any
    file content and any sequence of [add_user] and [del_user], building a
    new manager from the file as it then stands gives the same
    [allowed_ids] and the same [admin_ids]. *)
Theorem access_list_survives_restart (content : file_content) (admins : list Z)
    (ops : list access_op) :
  allowed_ids (__init__ (IdsFile (file (apply_ops (__init__ content admins) ops))) admins)
  = allowed_ids (apply_ops (__init__ content admins) ops) ∧
  admin_ids (__init__ (IdsFile (file (apply_ops (__init__ content admins) ops))) admins)
  = admin_ids (apply_ops (__init__ content admins) ops).
Proof.
  split.
  - apply apply_ops_in_sync, init_in_sync.
  - rewrite apply_ops_admin_ids. by destruct content.
Qed.

(** X3: for an id [u] that is not an administrator, [add_user] grants and
    [del_user] withdraws access to [u], neither changes the access of any
    other id, and adding then deleting [u] leaves [allowed_ids] without
    [u]. *)
Theorem add_del_user_effect (self : AccessManager) (u v : Z) :
  u ∉ admin_ids self →
  is_allowed (add_user self u) u = true ∧
  is_allowed (del_user self u) u = false ∧
  (v ≠ u → is_allowed (add_user self u) v = is_allowed self v ∧
           is_allowed (del_user self u) v = is_allowed self v) ∧
  allowed_ids (del_user (add_user self u) u) = allowed_ids self ∖ {[u]}.
Proof.
  intros Hu. repeat split; try intros Hv;
    unfold is_allowed, is_admin, add_user, del_user;
    repeat (case_bool_decide; cbn [admin_ids allowed_ids _save orb] in * ); try done;
    set_solver.
Qed.

Lemma add_del_user_effect_witness :
  is_allowed (add_user demo_access 7) 7 = true ∧
  is_allowed (del_user demo_access 7) 7 = false ∧
  (2%Z ≠ 7%Z → is_allowed (add_user demo_access 7) 2 = is_allowed demo_access 2 ∧
               is_allowed (del_user demo_access 7) 2 = is_allowed demo_access 2) ∧
  allowed_ids (del_user (add_user demo_access 7) 7) = allowed_ids demo_access ∖ {[7%Z]}.
Proof.
  apply (add_del_user_effect demo_access 7 2).
  simpl. intros H%elem_of_singleton_1. lia.
Defined.

(** ** Hour-count agreement *)

(** X4: [hours_word] gives the singular exactly for counts that end in 1
    but not in 11, the form "часа" exactly for counts that end in 2, 3 or 4
    but not in 12, 13 or 14, and the plural otherwise; the sign of the count
    is ignored and the word repeats with period 100. *)
Theorem hours_word_agreement (n : Z) :
  (hours_word n = HOURS_ONE ↔
     (Z.abs n mod 10 = 1 ∧ Z.abs n mod 100 ≠ 11)%Z) ∧
  (hours_word n = HOURS_FEW ↔
     (2 ≤ Z.abs n mod 10 ≤ 4 ∧ ¬ (12 ≤ Z.abs n mod 100 ≤ 14))%Z) ∧
  (hours_word n = HOURS_MANY ↔
     ((11 ≤ Z.abs n mod 100 ≤ 14) ∨ Z.abs n mod 10 = 0 ∨ 5 ≤ Z.abs n mod 10)%Z) ∧
  hours_word (- n) = hours_word n ∧
  hours_word (Z.abs n + 100) = hours_word n.
Proof.
  assert (((Z.abs n + 100) mod 100 = Z.abs n mod 100)%Z) as H100.
  { rewrite <- (Z.mul_1_l 100) at 1. apply Z_mod_plus_full. }
  assert (((Z.abs n + 100) mod 10 = Z.abs n mod 10)%Z) as H10.
  { replace (Z.abs n + 100)%Z with (Z.abs n + 10 * 10)%Z by lia. apply Z_mod_plus_full. }
  split; [|split; [|split; [|split]]].
  4: { unfold hours_word. by rewrite Z.abs_opp. }
  4: { unfold hours_word. rewrite (Z.abs_eq (Z.abs n + 100)) by lia. by rewrite H100, H10. }
  all: unfold hours_word; cbv zeta;
    pose proof (Z.mod_pos_bound (Z.abs n) 100 ltac:(lia));
    pose proof (Z.mod_pos_bound (Z.abs n) 10 ltac:(lia));
    assert ((Z.abs n mod 100) mod 10 = Z.abs n mod 10)%Z
      by (Z.to_euclidean_division_equations; lia);
    destruct (Z.leb_spec 11 (Z.abs n mod 100)), (Z.leb_spec (Z.abs n mod 100) 14),
      (Z.eqb_spec (Z.abs n mod 10) 1), (Z.leb_spec 2 (Z.abs n mod 10)),
      (Z.leb_spec (Z.abs n mod 10) 4); simpl; split; intros; try done; try lia;
    Z.to_euclidean_division_equations; lia.
Qed.

(** ** Names of the generated files *)

(** How often [n] occurs in [l]. *)
Definition occurrences (n : str) (l : list str) : nat :=
  length (filter (λ x, x = n) l).

(** The name [unique_names] gives to the entry [n] at position [i] of [l]. *)
Definition numbered (l : list str) (i : nat) (n : str) : str :=
  let k := occurrences n (take i l) in
  if decide (k = 0) then n else n ++ lit "_" ++ str_of_int (Z.of_nat (k + 1)).

Lemma occurrences_snoc (n x : str) (l : list str) :
  occurrences n (l ++ [x]) = occurrences n l + (if decide (x = n) then 1 else 0).
Proof.
  unfold occurrences. rewrite filter_app, length_app. f_equal.
  rewrite filter_cons, filter_nil. by destruct (decide (x = n)).
Qed.

Lemma unique_names_state (l : list str) :
  let st := foldl unique_names_step (∅, []) l in
  (∀ n, st.1 !! n = if decide (occurrences n l = 0) then None
                    else Some (Z.of_nat (occurrences n l))) ∧
  length st.2 = length l ∧
  (∀ i n, l !! i = Some n → st.2 !! i = Some (numbered l i n)).
Proof.
  induction l as [|x l IH] using rev_ind; simpl.
  - by split; [|split].
  - rewrite foldl_app. simpl.
    destruct (foldl unique_names_step (∅, []) l) as [used out]. simpl in IH.
    destruct IH as (Hused & Hlen & Hout).
    assert (∀ i n, l !! i = Some n → numbered (l ++ [x]) i n = numbered l i n) as Hsame.
    { intros i n Hi. apply lookup_lt_Some in Hi. unfold numbered.
      by rewrite take_app_le by lia. }
    assert (unique_names_step (used, out) x
            = (<[x := Z.of_nat (occurrences x l + 1)]> used,
               out ++ [numbered (l ++ [x]) (length l) x])) as Hstep.
    { unfold unique_names_step, numbered. rewrite take_app_length, (Hused x). cbv zeta.
      case_decide as H0; [by rewrite H0|]. by rewrite Nat2Z.inj_add. }
    rewrite Hstep. simpl. split; [|split].
    + intros n. rewrite occurrences_snoc. destruct (decide (x = n)) as [->|Hne].
      * rewrite lookup_insert_eq. by rewrite decide_False by lia.
      * rewrite lookup_insert_ne by done. rewrite Nat.add_0_r. apply Hused.
    + rewrite !length_app. simpl. lia.
    + intros i n Hi. destruct (decide (i = length l)) as [->|Hne].
      * rewrite lookup_app_r, Nat.sub_diag in Hi by lia. injection Hi as <-.
        rewrite lookup_app_r by lia. by rewrite Hlen, Nat.sub_diag.
      * assert (i < length l).
        { apply lookup_lt_Some in Hi. rewrite length_app in Hi. simpl in Hi. lia. }
        rewrite lookup_app_l in Hi by lia. rewrite lookup_app_l by lia.
        rewrite Hsame by done. by apply Hout.
Qed.

(** X5: [unique_names] returns one name per input name, in order: an entry
    keeps its name when the same name has not occurred before it, and the
    entry that is the k-th occurrence of its name (k at least 2) gets that
    name followed by an underscore and k in decimal. *)
Theorem unique_names_numbering (base_names : list str) :
  length (unique_names base_names) = length base_names ∧
  ∀ i n, base_names !! i = Some n →
    unique_names base_names !! i =
      Some (if decide (occurrences n (take i base_names) = 0) then n
            else n ++ lit "_"
                   ++ str_of_int (Z.of_nat (occurrences n (take i base_names) + 1))).
Proof.
  destruct (unique_names_state base_names) as (_ & Hlen & Hout).
  split; [exact Hlen|]. intros i n Hi. by apply Hout.
Qed.

Lemma lit_inj (a b : string) : lit a = lit b → a = b.
Proof.
  unfold lit. intros H.
  assert (Inj eq eq (λ c, Ascii.N_of_ascii c)) as Hinj.
  { intros x y Hxy. rewrite <- (Ascii.ascii_N_embedding x), <- (Ascii.ascii_N_embedding y).
    by f_equal. }
  apply (inj (fmap (λ c, Ascii.N_of_ascii c))) in H.
  rewrite <- (String.string_of_list_ascii_of_string a),
          <- (String.string_of_list_ascii_of_string b).
  by f_equal.
Qed.

Lemma str_of_int_inj (x y : Z) : str_of_int x = str_of_int y → x = y.
Proof. intros H. apply lit_inj in H. by apply (inj pretty). Qed.

Lemma occurrences_zero (n : str) (l : list str) : occurrences n l = 0 ↔ n ∉ l.
Proof.
  unfold occurrences. rewrite length_zero_iff_nil. split.
  - intros Hnil Hin. assert (n ∈ filter (λ x, x = n) l) as H by (by apply list_elem_of_filter).
    rewrite Hnil in H. by apply elem_of_nil in H.
  - intros Hnin. induction l as [|x l IH]; [done|].
    apply not_elem_of_cons in Hnin as [Hne Hnin].
    rewrite filter_cons, decide_False by done. by apply IH.
Qed.

Lemma occurrences_grow (l : list str) (i j : nat) (n : str) :
  i < j → l !! i = Some n →
  occurrences n (take i l) < occurrences n (take j l).
Proof.
  intros Hij Hi.
  assert (take j l !! i = Some n) as Hi' by (by rewrite lookup_take_lt).
  rewrite <- (take_drop_middle (take j l) i n Hi').
  rewrite take_take, Nat.min_l by lia.
  unfold occurrences. rewrite filter_app, filter_cons, decide_True by done.
  rewrite length_app. simpl. lia.
Qed.

(** X6: [unique_names] leaves a list without repeated names as it is, and
    it gives different names to any two occurrences of the same name.  The
    names it returns can still collide when an input already looks like a
    numbered name. *)
Theorem unique_names_separates (base_names : list str) :
  (NoDup base_names → unique_names base_names = base_names) ∧
  (∀ i j n, i ≠ j → base_names !! i = Some n → base_names !! j = Some n →
            unique_names base_names !! i ≠ unique_names base_names !! j) ∧
  ¬ NoDup (unique_names [lit "a"; lit "a"; lit "a_2"]).
Proof.
  assert (length (unique_names base_names) = length base_names ∧
          ∀ i n, base_names !! i = Some n →
                 unique_names base_names !! i = Some (numbered base_names i n))
    as [Hlen Hnum].
  { destruct (unique_names_state base_names) as (_ & Hlen & Hout).
    split; [exact Hlen|exact Hout]. }
  unfold numbered in Hnum.
  split; [|split].
  - intros Hnd. apply list_eq. intros i.
    destruct (base_names !! i) as [n|] eqn:Hi.
    + rewrite (Hnum i n Hi). rewrite decide_True; [done|].
      apply occurrences_zero. intros [k Hk]%list_elem_of_lookup.
      apply lookup_take_Some in Hk as [Hk Hlt].
      pose proof (NoDup_lookup _ _ _ _ Hnd Hk Hi). lia.
    + apply lookup_ge_None. rewrite Hlen. by apply lookup_ge_None.
  - assert (∀ i j n, i < j → base_names !! i = Some n → base_names !! j = Some n →
                     unique_names base_names !! i ≠ unique_names base_names !! j) as Hlt.
    { intros i j n Hij Hi Hj. rewrite (Hnum i n Hi), (Hnum j n Hj).
      pose proof (occurrences_grow base_names i j n Hij Hi) as Hocc.
      rewrite (decide_False (P := occurrences n (take j base_names) = 0)) by lia.
      intros [= Heq]. case_decide as H0.
      - rewrite <- (app_nil_r n) in Heq at 1. by apply app_inv_head in Heq.
      - apply app_inv_head in Heq. simpl in Heq. injection Heq as Heq.
        apply str_of_int_inj in Heq. lia. }
    intros i j n Hij Hi Hj. destruct (decide (i < j)).
    + by eapply Hlt.
    + intros Heq. eapply (Hlt j i n); [lia|done|done|done].
  - intros Hnd. vm_compute in Hnd.
    apply NoDup_cons_1_2, NoDup_cons_1_1 in Hnd. apply Hnd. by left.
Qed.

(** ** File names *)

(** A character a file name may hold: outside the forbidden class, and a
    space if it is whitespace at all. *)
Definition name_char (c : char) : Prop :=
  forbidden c = false ∧ (isspace c = true → c = SPACE).

Lemma lstrip_nil (s : str) : lstrip s = [] → Forall (λ c, isspace c = true) s.
Proof.
  induction s as [|c t IH]; simpl; [done|].
  destruct (isspace c) eqn:Hc; [|done]. intros H. constructor; auto.
Qed.

Lemma Forall_lstrip (P : char → Prop) (s : str) : Forall P s → Forall P (lstrip s).
Proof.
  intros H. destruct (lstrip_suffix s) as [pre Hpre]. rewrite Hpre in H.
  by apply Forall_app in H as [_ ?].
Qed.

Lemma Forall_rstrip (P : char → Prop) (s : str) : Forall P s → Forall P (rstrip s).
Proof.
  intros H. destruct (rstrip_prefix s) as [post Hpost]. rewrite Hpost in H.
  by apply Forall_app in H as [? _].
Qed.

Lemma Forall_strip (P : char → Prop) (s : str) : Forall P s → Forall P (strip s).
Proof. intros H. by apply Forall_rstrip, Forall_lstrip. Qed.

Lemma rstrip_length (s : str) : length (rstrip s) ≤ length s.
Proof.
  destruct (rstrip_prefix s) as [post Hpost]. rewrite Hpost at 2.
  rewrite length_app. lia.
Qed.

Lemma rstrip_nonempty (c : char) (t : str) : isspace c = false → rstrip (c :: t) ≠ [].
Proof.
  intros Hc Hnil. unfold rstrip in Hnil.
  assert (lstrip (rev (c :: t)) = []) as Hl.
  { by rewrite <- (rev_involutive (lstrip _)), Hnil. }
  apply lstrip_nil in Hl. rewrite Forall_forall in Hl.
  specialize (Hl c). rewrite Hl in Hc; [done|].
  simpl. apply elem_of_app. right. apply list_elem_of_here.
Qed.

Lemma sub_forbidden_from_chars (b : bool) (s : str) :
  Forall (λ c, forbidden c = false) (sub_forbidden_from b s).
Proof.
  revert b. induction s as [|c t IH]; intros b; simpl; [done|].
  destruct (forbidden c) eqn:Hc.
  - destruct b; [apply IH|]. constructor; [done|apply IH].
  - constructor; [done|apply IH].
Qed.

Lemma sub_ws_from_chars (b : bool) (s : str) :
  Forall (λ c, forbidden c = false) s → Forall name_char (sub_ws_from b s).
Proof.
  revert b. induction s as [|c t IH]; intros b Hs; simpl; [done|].
  apply Forall_cons_1 in Hs as [Hc Ht].
  destruct (isspace c) eqn:Hsp.
  - destruct b; [by apply IH|]. constructor; [done|by apply IH].
  - constructor; [|by apply IH]. split; [done|congruence].
Qed.

(** X7: for a non-negative [max_len], [safe_filename] returns at most
    [max_len] characters, none of them from the forbidden class
    (separators, wildcards, quotes, control characters), with no whitespace
    but single spaces and none at either end; for [max_len] of at least 1
    the name is not empty. *)
Theorem safe_filename_sound (name : str) (max_len : Z) :
  (0 ≤ max_len)%Z →
  (Z.of_nat (length (safe_filename name max_len)) ≤ max_len)%Z ∧
  Forall name_char (safe_filename name max_len) ∧
  starts_ok (safe_filename name max_len) ∧
  ends_ok (safe_filename name max_len) ∧
  ((1 ≤ max_len)%Z → safe_filename name max_len ≠ []).
Proof.
  intros Hmax. unfold safe_filename.
  set (s3 := strip (sub_ws (sub_forbidden_from false (strip name)))).
  set (s4 := if negb (nonempty s3) then lit "item" else s3).
  assert (Forall name_char s4 ∧ starts_ok s4 ∧ ends_ok s4 ∧ s4 ≠ []) as (Hch & Hst & Hen & Hne).
  { unfold s4. destruct (nonempty s3) eqn:Hs3; simpl.
    - repeat split.
      + apply Forall_strip, sub_ws_from_chars, sub_forbidden_from_chars.
      + apply strip_starts_ok.
      + apply strip_ends_ok.
      + by destruct s3.
    - repeat split; try done.
      + repeat constructor; by intros [=].
      + by intros c [= <-].
      + by intros c [= <-]. }
  destruct (Z.ltb_spec max_len (Z.of_nat (length s4))) as [Hlt|Hge].
  - unfold slice_to. rewrite (proj2 (Z.ltb_ge _ _)) by lia.
    repeat split.
    + pose proof (rstrip_length (take (Z.to_nat max_len) s4)) as Hl.
      rewrite length_take in Hl. lia.
    + by apply Forall_rstrip, Forall_take.
    + apply rstrip_starts_ok. intros c Hc. apply Hst.
      destruct s4 as [|c0 t]; [by rewrite take_nil in Hc|].
      destruct (Z.to_nat max_len); [done|exact Hc].
    + apply rstrip_ends_ok.
    + intros H1. destruct s4 as [|c0 t]; [done|].
      destruct (Z.to_nat max_len) as [|k] eqn:Hk; [lia|]. simpl.
      apply rstrip_nonempty. by apply Hst.
  - repeat split; try done; lia.
Qed.

Lemma safe_filename_sound_witness :
  (Z.of_nat (length (safe_filename (lit " a/b:  c?.pdf ") 6)) ≤ 6)%Z ∧
  Forall name_char (safe_filename (lit " a/b:  c?.pdf ") 6) ∧
  starts_ok (safe_filename (lit " a/b:  c?.pdf ") 6) ∧
  ends_ok (safe_filename (lit " a/b:  c?.pdf ") 6) ∧
  ((1 ≤ 6)%Z → safe_filename (lit " a/b:  c?.pdf ") 6 ≠ []).
Proof.
  apply (safe_filename_sound (lit " a/b:  c?.pdf ") 6). lia.
Defined.

(** ** The pieces of a long word *)

Section pieces.
Context `{M : PdfMetrics}.
Variables (font_name : str) (size : Z) (max_width : Q).

Local Abbreviation fit s := (fits font_name size max_width s).

(** Consecutive pieces: one that fits cannot take the first character of
    the next. *)
Inductive chain : list str → Prop :=
| chain_nil : chain []
| chain_one p : chain [p]
| chain_cons p c q rest :
    (fit p → ¬ fit (p ++ [c])) → chain ((c :: q) :: rest) →
    chain (p :: (c :: q) :: rest).

Lemma chain_snoc (parts : list str) (c : char) (b : str) :
  Forall (λ p, p ≠ []) parts → chain parts →
  (∀ p, last parts = Some p → fit p → ¬ fit (p ++ [c])) →
  chain (parts ++ [c :: b]).
Proof.
  intros Hne Hch. induction Hch as [|p|p c' q rest Hpc Hch IH]; intros Hlast; simpl.
  - constructor.
  - constructor; [|constructor]. by apply Hlast.
  - constructor; [done|]. apply IH; [by apply Forall_cons_1 in Hne as [_ ?]|].
    intros p' Hp'. by apply Hlast.
Qed.

Lemma break_chars_chain (word : str) (parts : list str) (buf : str) :
  Forall (λ p, p ≠ []) parts → chain parts →
  (buf = [] → ∀ p, last parts = Some p → ¬ fit p) →
  (∀ c b p, buf = c :: b → last parts = Some p → fit p → ¬ fit (p ++ [c])) →
  let '(parts', buf') := break_chars font_name size max_width word parts buf in
  chain (if nonempty buf' then parts' ++ [buf'] else parts').
Proof.
  revert parts buf.
  induction word as [|ch rest IH]; intros parts buf Hne Hch Hnil Hcons; simpl.
  - destruct buf as [|c b]; simpl; [done|]. apply chain_snoc; eauto.
  - destruct (Qle_bool _ _) eqn:Htest.
    + apply IH; try done.
      * by destruct buf.
      * intros c b p Hbuf Hp Hfit. destruct buf as [|c0 b0]; simpl in Hbuf.
        -- by apply Hnil in Hp.
        -- injection Hbuf as <- _. by eapply Hcons.
    + destruct buf as [|c0 b0]; simpl.
      * apply IH.
        -- apply Forall_app. split; [done|]. by constructor.
        -- apply chain_snoc; [done|done|]. intros p Hp Hfit. by apply Hnil in Hp.
        -- intros _ p. rewrite last_snoc. intros [= <-]. unfold fits.
           simpl in Htest |- *. by rewrite Htest.
        -- done.
      * apply IH.
        -- apply Forall_app. split; [done|]. by constructor.
        -- apply chain_snoc; [done|done|]. intros p Hp Hfit. by eapply Hcons.
        -- done.
        -- intros c b p [= <- <-]. rewrite last_snoc. intros [= <-] _.
           unfold fits. simpl in Htest |- *. by rewrite Htest.
Qed.

Lemma break_long_word_chain (word : str) :
  chain (break_long_word word font_name size max_width).
Proof.
  unfold break_long_word.
  pose proof (break_chars_chain word [] []) as H.
  destruct (break_chars _ _ _ word [] []) as [p b].
  apply H; try done. constructor.
Qed.

Lemma chain_lookup (pieces : list str) (i : nat) (p q : str) (c : char) :
  chain pieces → pieces !! i = Some p → pieces !! S i = Some (c :: q) →
  fit p → ¬ fit (p ++ [c]).
Proof.
  intros Hch. revert i. induction Hch as [|p0|p0 c0 q0 rest Hpc Hch IH]; intros i.
  - intros Hp%lookup_lt_Some. simpl in Hp. lia.
  - intros _ Hq%lookup_lt_Some. simpl in Hq. lia.
  - destruct i as [|i]; simpl.
    + intros [= <-] [= <- <-]. done.
    + apply IH.
Qed.

End pieces.

(** X8: [break_long_word] cuts a word into pieces that, put together again,
    give the word; no piece is empty, and each piece either passes the width
    test or is a single character. *)
Theorem break_long_word_partition `{M : PdfMetrics} (word font_name : str) (size : Z)
    (max_width : Q) :
  concat (break_long_word word font_name size max_width) = word ∧
  Forall (λ p, p ≠ []) (break_long_word word font_name size max_width) ∧
  Forall (λ p, (text_width font_name size p <= max_width)%Q ∨ ∃ ch, p = [ch])
    (break_long_word word font_name size max_width).
Proof.
  split; [apply break_long_word_concat|]. split; [apply break_long_word_nonempty|].
  eapply Forall_impl; [apply break_long_word_piece_ok|].
  intros p [Hfit|Hone]; [left|by right]. by apply Qle_bool_iff.
Qed.

(** X9: the pieces are maximal prefixes: a piece of [break_long_word] that
    passes the width test no longer passes it when the first character of
    the next piece is added to it. *)
Theorem break_long_word_maximal `{M : PdfMetrics} (word font_name : str) (size : Z)
    (max_width : Q) (i : nat) (p q : str) (c : char) :
  break_long_word word font_name size max_width !! i = Some p →
  break_long_word word font_name size max_width !! S i = Some (c :: q) →
  (text_width font_name size p <= max_width)%Q →
  ¬ (text_width font_name size (p ++ [c]) <= max_width)%Q.
Proof.
  intros Hp Hq Hfit. rewrite <- Qle_bool_iff.
  eapply chain_lookup; eauto using break_long_word_chain.
  by apply Qle_bool_iff.
Qed.

Lemma break_long_word_maximal_witness :
  ¬ (@text_width demo_metrics [] 2 (lit "iii" ++ [87%N]) <= 20)%Q.
Proof.
  apply (@break_long_word_maximal demo_metrics (lit "iiiW") [] 2 20 0 (lit "iii") [] 87%N).
  - reflexivity.
  - reflexivity.
  - by vm_compute.
Defined.

(** X10: when every character of the word passes the width test on its
    own, every piece of [break_long_word] passes it. *)
Theorem break_long_word_fits `{M : PdfMetrics} (word font_name : str) (size : Z)
    (max_width : Q) :
  Forall (λ ch, (text_width font_name size [ch] <= max_width)%Q) word →
  Forall (λ p, (text_width font_name size p <= max_width)%Q)
    (break_long_word word font_name size max_width).
Proof.
  intros Hchars.
  pose proof (break_long_word_concat font_name size max_width word) as Hcat.
  pose proof (break_long_word_piece_ok font_name size max_width word) as Hok.
  rewrite Forall_forall in Hok. apply Forall_forall. intros p Hp.
  destruct (Hok p Hp) as [Hfit|[ch ->]]; [by apply Qle_bool_iff|].
  rewrite Forall_forall in Hchars. apply Hchars.
  rewrite <- Hcat. apply list_elem_of_In, in_concat. exists [ch].
  split; [by apply list_elem_of_In|by left].
Qed.

Lemma break_long_word_fits_witness :
  Forall (λ p, (@text_width demo_metrics [] 2 p <= 20)%Q)
    (@break_long_word demo_metrics (lit "iiiW") [] 2 20).
Proof.
  apply (@break_long_word_fits demo_metrics (lit "iiiW") [] 2 20).
  repeat constructor; by vm_compute.
Defined.

(** ** What a successful wrap holds *)

Lemma letters_word (w : str) : Forall (λ c, isspace c = false) w → letters w = w.
Proof.
  unfold letters. induction 1 as [|c w Hc Hw IH]; [done|].
  rewrite filter_cons, decide_True, IH; [done|].
  intros ->. by rewrite isspace_SPACE in Hc.
Qed.

Lemma letters_app (a b : str) : letters (a ++ b) = letters a ++ letters b.
Proof. apply filter_app. Qed.

Lemma concat_split_space (s : str) : concat (split_space s) = letters s.
Proof.
  induction s as [|c t IH]; [done|]. simpl. unfold letters. rewrite filter_cons.
  destruct (N.eqb_spec c SPACE) as [->|Hne].
  - rewrite decide_False by (by intros ?). simpl. apply IH.
  - rewrite decide_True by done. fold (letters t). rewrite <- IH.
    by destruct (split_space t).
Qed.

Lemma join_split_space (s : str) : join_space (split_space s) = s.
Proof.
  induction s as [|c t IH]; [done|]. simpl.
  destruct (N.eqb_spec c SPACE) as [->|Hne].
  - destruct (split_space t) as [|w ws] eqn:Hsp; [by destruct t; simplify_eq/=; repeat case_match|].
    change (join_space ([] :: w :: ws)) with ([] ++ [SPACE] ++ join_space (w :: ws)).
    by rewrite IH.
  - destruct (split_space t) as [|w [|w' ws]] eqn:Hsp.
    + by destruct t; simplify_eq/=; repeat case_match.
    + simpl in *. by rewrite IH.
    + change (join_space ((c :: w) :: w' :: ws))
        with ((c :: w) ++ [SPACE] ++ join_space (w' :: ws)).
      change (join_space (w :: w' :: ws)) with (w ++ [SPACE] ++ join_space (w' :: ws)) in IH.
      simpl. by rewrite <- IH.
Qed.

Lemma join_space_merge (before after : list str) (x y : str) :
  join_space (before ++ (x ++ [SPACE] ++ y) :: after)
  = join_space (before ++ x :: y :: after).
Proof.
  induction before as [|p before IH].
  - simpl. destruct after as [|a after]; [done|]. by rewrite <- !app_assoc.
  - destruct before as [|q before].
    + simpl in *. by rewrite IH.
    + change (join_space ((p :: q :: before) ++ ?l))
        with (p ++ [SPACE] ++ join_space ((q :: before) ++ l)).
      by rewrite IH.
Qed.

Section wrap_content.
Context `{M : PdfMetrics}.
Variables (font_name : str) (size : Z) (max_width : Q).

Lemma break_long_word_words (w : str) :
  is_word w → Forall is_word (break_long_word w font_name size max_width).
Proof.
  intros [_ Hw].
  pose proof (break_long_word_nonempty font_name size max_width w) as Hne.
  pose proof (break_long_word_concat font_name size max_width w) as Hcat.
  rewrite Forall_forall in Hne. apply Forall_forall. intros p Hp.
  split; [by apply Hne|]. apply Forall_forall. intros c Hc.
  rewrite Forall_forall in Hw. apply Hw. rewrite <- Hcat.
  apply list_elem_of_In, in_concat. exists p. by rewrite <- !list_elem_of_In.
Qed.

Lemma splice_words (words pieces : list str) (i : nat) :
  Forall is_word words → Forall is_word pieces →
  Forall is_word (take i words ++ pieces ++ drop (S i) words).
Proof.
  intros Hw Hp. apply Forall_app. split; [by apply Forall_take|].
  apply Forall_app. split; [done|by apply Forall_drop].
Qed.

(** The characters placed so far and those still to place. *)
Definition content (lines : list str) (current : str) (rest : list str) : str :=
  concat (letters <$> lines) ++ letters current ++ concat rest.

Lemma place_content fuel max_lines allow words i lines current w l :
  (∀ words' i' lines' current' l',
     Forall is_word words' → clean current' →
     wrap_loop fuel font_name size max_width max_lines allow words' i' lines' current'
       = Return (Some l') →
     concat (letters <$> l') = content lines' current' (drop i' words')) →
  Forall is_word words → clean current → words !! i = Some w →
  place font_name size max_width fuel max_lines allow words i lines current w
    = Return (Some l) →
  concat (letters <$> l) = content lines current (drop i words).
Proof.
  intros IH Hws Hc Hw. unfold place.
  assert (is_word w) as Hword by (by eapply Forall_lookup_1 in Hws).
  rewrite (drop_S _ _ _ Hw).
  set (test := if nonempty current then strip (current ++ [SPACE] ++ w) else w).
  assert (clean test ∧ letters test = letters current ++ w) as [Hct Hlt].
  { unfold test. destruct current as [|c cs]; simpl.
    - split; [by apply is_word_clean|]. apply letters_word. by destruct Hword.
    - destruct (join_clean (c :: cs) w) as [Hj Hjc]; try done.
      change (c :: cs ++ SPACE :: w) with ((c :: cs) ++ [SPACE] ++ w). rewrite Hj.
      split; [done|]. rewrite !letters_app. f_equal.
      unfold letters at 1. rewrite filter_cons, decide_False, filter_nil by (by intros ?).
      apply letters_word. by destruct Hword. }
  destruct (Qle_bool _ _).
  - intros H. apply IH in H; [|done|done]. rewrite H. unfold content.
    rewrite Hlt. simpl. by rewrite <- !app_assoc.
  - destruct (max_lines <=? _)%Z; [done|]. intros H.
    apply IH in H; [|done|done]. rewrite H. unfold content.
    rewrite (drop_S _ _ _ Hw), fmap_app, concat_app. simpl.
    by rewrite app_nil_r, <- !app_assoc.
Qed.

Lemma wrap_loop_content fuel max_lines allow words i lines current l :
  Forall is_word words → clean current →
  wrap_loop fuel font_name size max_width max_lines allow words i lines current
    = Return (Some l) →
  concat (letters <$> l) = content lines current (drop i words).
Proof.
  revert words i lines current l.
  induction fuel as [|fuel IH]; intros words i lines current l Hws Hc; [done|].
  rewrite wrap_loop_unfold. case_bool_decide as Hi.
  - destruct (lookup_lt_is_Some_2 words i Hi) as [w Hw]. rewrite Hw.
    assert (is_word w) as Hword by (by eapply Forall_lookup_1 in Hws).
    destruct (Qgtb _ _); [|by eapply place_content].
    destruct allow; simpl; [|done].
    pose proof (break_long_word_words w Hword) as Hpw.
    pose proof (break_long_word_concat font_name size max_width w) as Hcat.
    set (pieces := break_long_word w font_name size max_width) in *.
    destruct ((take i words ++ pieces ++ drop (S i) words) !! i) as [w'|] eqn:Hw'; [|done].
    intros H. eapply place_content in H; eauto using splice_words.
    rewrite H. unfold content. rewrite (splice_drop _ _ _ _ Hw), (drop_S _ _ _ Hw).
    rewrite concat_app, Hcat. done.
  - intros [= Hl]. case_match; [|done]. injection Hl as <-.
    unfold content. rewrite drop_ge by lia. simpl. rewrite app_nil_r.
    destruct current as [|c cs]; simpl; [by rewrite app_nil_r|].
    by rewrite fmap_app, concat_app; simpl; rewrite app_nil_r.
Qed.

Lemma place_no_empty_line fuel max_lines allow words i lines current w l :
  (∀ words' i' lines' current' l',
     Forall (λ w, w ≠ []) words' → Forall (λ x, x ≠ []) lines' →
     wrap_loop fuel font_name size max_width max_lines allow words' i' lines' current'
       = Return (Some l') →
     Forall (λ x, x ≠ []) l') →
  Forall (λ w, w ≠ []) words → Forall (λ x, x ≠ []) lines →
  words !! i = Some w → piece_ok font_name size max_width w →
  place font_name size max_width fuel max_lines allow words i lines current w
    = Return (Some l) →
  Forall (λ x, x ≠ []) l.
Proof.
  intros IH Hws Hlines Hw Hpiece. unfold place.
  destruct (Qle_bool _ max_width) eqn:Htest; [by apply IH|].
  destruct (max_lines <=? _)%Z; [done|].
  destruct current as [|c cs]; simpl in Htest.
  - destruct Hpiece as [Hfit|[ch ->]]; [unfold fits in Hfit; congruence|].
    intros Hloop. eapply wrap_loop_stuck in Hloop; [done|done|].
    unfold Qgtb. by rewrite Htest.
  - apply IH; [done|]. apply Forall_app. split; [done|]. by constructor.
Qed.

Lemma wrap_loop_no_empty_line fuel max_lines allow words i lines current l :
  Forall (λ w, w ≠ []) words → Forall (λ x, x ≠ []) lines →
  wrap_loop fuel font_name size max_width max_lines allow words i lines current
    = Return (Some l) →
  Forall (λ x, x ≠ []) l.
Proof.
  revert words i lines current l.
  induction fuel as [|fuel IH]; intros words i lines current l Hws Hlines; [done|].
  rewrite wrap_loop_unfold. case_bool_decide as Hi.
  - destruct (lookup_lt_is_Some_2 words i Hi) as [w Hw]. rewrite Hw.
    assert (w ≠ []) as Hwne by (eapply Forall_lookup_1 in Hws; eauto).
    destruct (Qgtb _ _) eqn:Hgt.
    + destruct allow; simpl; [|done].
      pose proof (break_long_word_piece_ok font_name size max_width w) as Hok.
      pose proof (break_long_word_nonempty font_name size max_width w) as Hpne.
      pose proof (break_long_word_some font_name size max_width w Hwne) as Hsome.
      set (pieces := break_long_word w font_name size max_width) in *.
      destruct ((take i words ++ pieces ++ drop (S i) words) !! i) as [w'|] eqn:Hw'; [|done].
      assert (piece_ok font_name size max_width w') as Hok'.
      { rewrite (splice_lookup _ _ _ _ Hw) in Hw'.
        destruct pieces as [|p ps]; [done|]. simpl in Hw'.
        injection Hw' as <-. by apply Forall_cons_1 in Hok as [? _]. }
      eapply place_no_empty_line; eauto.
      apply Forall_app. split; [by apply Forall_take|].
      apply Forall_app. split; [done|by apply Forall_drop].
    + eapply place_no_empty_line; eauto. left.
      unfold fits. unfold Qgtb in Hgt. by apply negb_false_iff in Hgt.
  - intros [= Hl]. case_match; [|done]. injection Hl as <-.
    destruct current as [|c cs]; simpl; [done|].
    apply Forall_app. split; [done|]. by constructor.
Qed.

End wrap_content.

Section greedy_content.
Context `{M : PdfMetrics}.
Variables (font_name : str) (size : Z) (max_width : Q) (max_lines : Z).

(** The current line, if one is open. *)
Definition open_line (current : str) : list str :=
  if nonempty current then [current] else [].

Lemma greedy_join (ws lines : list str) (current : str) (l : list str) :
  Forall is_word ws → clean current →
  greedy font_name size max_width max_lines ws lines current = Some l →
  join_space l = join_space (lines ++ open_line current ++ ws).
Proof.
  intros Hws. revert lines current.
  induction Hws as [|w ws Hw Hws IH]; intros lines current Hc.
  - simpl. unfold open_line. rewrite app_nil_r.
    destruct (nonempty current); destruct (_ <=? _)%Z; try done;
      intros [= <-]; by rewrite ?app_nil_r.
  - rewrite greedy_cons. cbv zeta. destruct (Qgtb _ _) eqn:Hgt; [done|].
    destruct current as [|c cs]; cbn [nonempty open_line].
    + apply Qgtb_false, Qle_bool_iff in Hgt. rewrite Hgt. intros H.
      apply IH in H; [|by apply is_word_clean]. rewrite H. unfold open_line.
      by replace (nonempty w) with true by (by destruct Hw as [? _]; destruct w).
    + destruct (join_clean (c :: cs) w) as [Hj Hjc]; try done. rewrite Hj.
      destruct (Qle_bool _ _).
      * intros H. apply IH in H; [|done]. rewrite H. unfold open_line.
        replace (nonempty ((c :: cs) ++ [SPACE] ++ w)) with true by done.
        apply join_space_merge.
      * destruct (max_lines <=? _)%Z; [done|]. intros H.
        apply IH in H; [|by apply is_word_clean]. rewrite H. unfold open_line.
        replace (nonempty w) with true by (by destruct Hw as [? _]; destruct w).
        by rewrite <- !app_assoc.
Qed.

End greedy_content.

Lemma split_space_cons (s : str) : split_space s ≠ [].
Proof. destruct s as [|c t]; simpl; [done|]. by repeat case_match. Qed.

Lemma normalize_ws_letters (text : str) :
  nonempty (normalize_ws text) = true → letters (normalize_ws text) ≠ [].
Proof.
  intros Hne. pose proof (normalize_ws_words text Hne) as Hws.
  rewrite <- concat_split_space.
  pose proof (split_space_cons (normalize_ws text)) as Hsp.
  destruct (split_space (normalize_ws text)) as [|w ws]; [done|].
  apply Forall_cons_1 in Hws as [[Hw _] _]. simpl. by destruct w.
Qed.

(** X11: a successful wrap keeps the text: the lines of [wrap_lines], with
    their spaces taken out, hold the characters of the normalised text in
    the same order, none lost and none added, whether or not words were
    broken; there is at least one line, and no line is empty. *)
Theorem wrap_lines_keeps_text `{M : PdfMetrics} (text font_name : str) (size : Z)
    (max_width : Q) (max_lines : Z) (allow_word_break : bool) (lines : list str) :
  wrap_lines text font_name size max_width max_lines allow_word_break = Return (Some lines) →
  concat (letters <$> lines) = letters (normalize_ws text) ∧
  lines ≠ [] ∧ Forall (λ line, line ≠ []) lines.
Proof.
  unfold wrap_lines. destruct (nonempty (normalize_ws text)) eqn:Hne; simpl; [|done].
  intros H. pose proof (normalize_ws_words text Hne) as Hws.
  assert (concat (letters <$> lines) = letters (normalize_ws text)) as Hcontent.
  { apply wrap_loop_content in H; [|done|done].
    rewrite H. unfold content. rewrite drop_0. simpl. apply concat_split_space. }
  split; [done|]. split.
  - intros ->. simpl in Hcontent. symmetry in Hcontent.
    by apply normalize_ws_letters in Hcontent.
  - eapply wrap_loop_no_empty_line; [| |exact H]; [|done].
    eapply Forall_impl; [exact Hws|]. by intros w [? _].
Qed.

Lemma wrap_lines_keeps_text_witness :
  concat (letters <$> [lit "iiiiii iii"; lit "W i"]) = letters (normalize_ws (lit "iiiiii iiiW i")) ∧
  [lit "iiiiii iii"; lit "W i"] ≠ [] ∧
  Forall (λ line, line ≠ []) [lit "iiiiii iii"; lit "W i"].
Proof.
  apply (@wrap_lines_keeps_text demo_metrics (lit "iiiiii iiiW i") [] 2 20 2 true).
  by vm_compute.
Defined.

(** X12: without character breaks a successful wrap only replaces spaces by
    line ends: the lines of [wrap_lines], joined by single spaces, are the
    normalised text. *)
Theorem wrap_lines_joins_back `{M : PdfMetrics} (text font_name : str) (size : Z)
    (max_width : Q) (max_lines : Z) (lines : list str) :
  wrap_lines text font_name size max_width max_lines false = Return (Some lines) →
  join_space lines = normalize_ws text.
Proof.
  unfold wrap_lines. destruct (nonempty (normalize_ws text)) eqn:Hne; simpl; [|done].
  intros H. pose proof (normalize_ws_words text Hne) as Hws.
  apply wrap_loop_greedy in H. rewrite drop_0 in H. symmetry in H.
  apply greedy_join in H; [|done|done]. rewrite H. simpl.
  apply join_split_space.
Qed.

Lemma wrap_lines_joins_back_witness :
  join_space [lit "iiiiii"; lit "iiiW i"] = normalize_ws (lit " iiiiii   iiiW i ").
Proof.
  apply (@wrap_lines_joins_back demo_metrics (lit " iiiiii   iiiW i ") [] 1 13 2).
  by vm_compute.
Defined.

(** ** Blank text *)

Lemma lstrip_blank (s : str) : Forall (λ c, isspace c = true) s → lstrip s = [].
Proof. induction 1 as [|c s Hc Hs IH]; simpl; [done|]. by rewrite Hc. Qed.

Lemma normalize_ws_blank (text : str) :
  Forall (λ c, isspace c = true) text → strip text = [] ∧ normalize_ws text = [].
Proof.
  intros H. unfold normalize_ws, strip. by rewrite (lstrip_blank text H).
Qed.

Lemma for_each_all_next {A R} (xs : list A) (body : A → exec R) :
  (∀ x, body x = Next) → for_each xs body = Next.
Proof. intros H. induction xs as [|x xs IH]; simpl; [done|]. by rewrite H. Qed.

(** X13: text that is empty or holds only whitespace never wraps:
    [wrap_lines] returns [None] for it at every size, [fit_text] and
    [fit_text_in_box] return the minimum size with the single line "…", and
    [fit_text_above_line] returns the minimum size with one empty line at
    [y_line + clearance]. *)
Theorem blank_text_layout `{M : PdfMetrics} (text font_name : str)
    (max_size min_size : Z) (max_width : Q) (max_lines : Z) (allow_word_break : bool)
    (max_height line_height y_top y_line clearance : Q) :
  Forall (λ c, isspace c = true) text →
  (∀ size, wrap_lines text font_name size max_width max_lines allow_word_break
           = Return None) ∧
  fit_text text font_name max_size min_size max_width max_lines allow_word_break
    = Return (min_size, [[ELLIPSIS]]) ∧
  fit_text_in_box text font_name max_size min_size max_width max_lines
    max_height line_height allow_word_break
    = Return (min_size, [[ELLIPSIS]]) ∧
  fit_text_above_line text font_name max_size min_size max_width max_lines
    y_top y_line clearance line_height allow_word_break
    = Return (min_size, [[]], (y_line + clearance)%Q).
Proof.
  intros Hblank. destruct (normalize_ws_blank text Hblank) as [Hstrip Hnorm].
  assert (∀ size, wrap_lines text font_name size max_width max_lines allow_word_break
                  = Return None) as Hwrap.
  { intros size. unfold wrap_lines. by rewrite Hnorm. }
  assert (ellipsis_line text = [ELLIPSIS]) as Hell.
  { unfold ellipsis_line. by rewrite Hstrip. }
  split; [done|]. split; [|split].
  - unfold fit_text. rewrite for_each_all_next by (intros s; by rewrite Hwrap).
    simpl. rewrite Hwrap. simpl. by rewrite Hell.
  - unfold fit_text_in_box. rewrite for_each_all_next by (intros s; by rewrite Hwrap).
    simpl. rewrite Hwrap. simpl. by rewrite Hell.
  - unfold fit_text_above_line. by rewrite Hnorm.
Qed.

Lemma blank_text_layout_witness :
  (∀ size, @wrap_lines demo_metrics [9%N; 32%N; 160%N] [] size 100 2 true = Return None) ∧
  @fit_text demo_metrics [9%N; 32%N; 160%N] [] 72 34 100 2 true
    = Return (34%Z, [[ELLIPSIS]]) ∧
  @fit_text_in_box demo_metrics [9%N; 32%N; 160%N] [] 72 34 100 2 50 1 true
    = Return (34%Z, [[ELLIPSIS]]) ∧
  @fit_text_above_line demo_metrics [9%N; 32%N; 160%N] [] 72 34 100 2 1425 855 36 1 true
    = Return (34%Z, [[]], (855 + 36)%Q).
Proof.
  apply (@blank_text_layout demo_metrics [9%N; 32%N; 160%N] [] 72 34 100 2 true 50 1
           1425 855 36).
  repeat constructor.
Defined.

(** ** The fitters return the largest size that works *)

Section largest.
Context `{M : PdfMetrics}.
Variables (text font_name : str) (max_size min_size : Z).
Variables (max_width : Q) (max_lines : Z) (allow : bool).

Lemma wrap_lines_some_truthy t s l :
  wrap_lines t font_name s max_width max_lines allow = Return (Some l) → l ≠ [].
Proof.
  unfold wrap_lines. destruct (nonempty (normalize_ws t)) eqn:Hne; simpl; [|done].
  intros H. pose proof (normalize_ws_words t Hne) as Hws.
  apply wrap_loop_content in H; [|done|done].
  unfold content in H. rewrite drop_0 in H. simpl in H.
  rewrite concat_split_space in H. intros ->. simpl in H. symmetry in H.
  by apply normalize_ws_letters in H.
Qed.


Lemma not_falsy_at t s l :
  wrap_lines t font_name s max_width max_lines allow = Return (Some l) →
  ¬ falsy_at font_name max_width max_lines allow t s.
Proof.
  intros Hw (r & Hr & Ht). rewrite Hw in Hr. injection Hr as <-.
  apply wrap_lines_some_truthy in Hw. by destruct l.
Qed.

End largest.

(** X14: [fit_text] returns the largest size that wraps: if the text wraps
    at some size [s0] of the range, the result is a size between [s0] and
    [max_size] together with the lines [wrap_lines] gives at that size, and
    the text wraps at no larger size of the range. *)
Theorem fit_text_largest `{M : PdfMetrics} (text font_name : str)
    (max_size min_size : Z) (max_width : Q) (max_lines : Z) (allow_word_break : bool)
    (s0 : Z) (l0 : list str) :
  (min_size ≤ s0 ≤ max_size)%Z →
  wrap_lines text font_name s0 max_width max_lines allow_word_break = Return (Some l0) →
  ∃ s l,
    fit_text text font_name max_size min_size max_width max_lines allow_word_break
      = Return (s, l) ∧
    (s0 ≤ s ≤ max_size)%Z ∧
    wrap_lines text font_name s max_width max_lines allow_word_break = Return (Some l) ∧
    ∀ s', (s < s' ≤ max_size)%Z →
      wrap_lines text font_name s' max_width max_lines allow_word_break = Return None.
Proof.
  intros Hs0 Hw0. pose proof (not_falsy_at _ _ _ _ _ _ _ Hw0) as Hnot.
  assert (∀ s', falsy_at font_name max_width max_lines allow_word_break text s' →
                wrap_lines text font_name s' max_width max_lines allow_word_break
                  = Return None) as Hnone.
  { intros s' (r & Hr & Ht). rewrite Hr. destruct r as [l|]; [|done].
    apply wrap_lines_some_truthy in Hr. by destruct l. }
  destruct (fit_text_cases text font_name max_size min_size max_width max_lines
              allow_word_break) as (s & l & Hfit & [(Hs & Hw & Hne & Hbig)|(-> & Hall & _)]).
  - exists s, l. split; [done|]. split; [|split; [done|]].
    + destruct (decide (s0 ≤ s)%Z); [lia|]. exfalso. apply Hnot, Hbig. lia.
    + intros s' Hs'. by apply Hnone, Hbig.
  - exfalso. by apply Hnot, Hall.
Qed.

Lemma fit_text_largest_witness :
  ∃ s l,
    @fit_text demo_metrics (lit "iiiiii iiiW i") [] 3 1 22 2 false = Return (s, l) ∧
    (1 ≤ s ≤ 3)%Z ∧
    @wrap_lines demo_metrics (lit "iiiiii iiiW i") [] s 22 2 false = Return (Some l) ∧
    ∀ s', (s < s' ≤ 3)%Z →
      @wrap_lines demo_metrics (lit "iiiiii iiiW i") [] s' 22 2 false = Return None.
Proof.
  apply (@fit_text_largest demo_metrics (lit "iiiiii iiiW i") [] 3 1 22 2 false 1
           [lit "iiiiii iiiW i"]).
  - lia.
  - by vm_compute.
Defined.

(** X15: with [min_size <= max_size], when the text wraps at no size of the
    range [fit_text] returns the minimum size and one line: the first 20
    characters of the stripped text followed by "…". *)
Theorem fit_text_truncates `{M : PdfMetrics} (text font_name : str)
    (max_size min_size : Z) (max_width : Q) (max_lines : Z) (allow_word_break : bool) :
  (min_size ≤ max_size)%Z →
  (∀ s, (min_size ≤ s ≤ max_size)%Z →
     wrap_lines text font_name s max_width max_lines allow_word_break = Return None) →
  fit_text text font_name max_size min_size max_width max_lines allow_word_break
  = Return (min_size, [take 20 (strip text) ++ [ELLIPSIS]]).
Proof.
  intros Hle Hnone.
  destruct (fit_text_cases text font_name max_size min_size max_width max_lines
              allow_word_break)
    as (s & l & Hfit & [(Hs & Hw & _)|(-> & _ & r & Hr & ->)]).
  - rewrite Hnone in Hw by done. done.
  - rewrite Hnone in Hr by lia. injection Hr as <-.
    rewrite Hfit. unfold or_else. simpl. by rewrite ellipsis_line_eq.
Qed.

Lemma fit_text_truncates_witness :
  @fit_text demo_metrics (lit "WWWW") [] 3 1 6 1 false
  = Return (1%Z, [take 20 (strip (lit "WWWW")) ++ [ELLIPSIS]]).
Proof.
  apply (@fit_text_truncates demo_metrics (lit "WWWW") [] 3 1 6 1 false).
  - lia.
  - intros s Hs.
    assert (s = 1 ∨ s = 2 ∨ s = 3)%Z as [->|[->| ->]] by lia; by vm_compute.
Defined.








(** ** Baselines of drawn lines *)







(** ** The baseline fitter and its drawing routine together *)






(** ** Name and goal on the tips card *)


(** ** The dialogue: who may act, and what a complete run builds *)

(** X23: a user whose access check fails changes nothing: whatever the
    event and the context, the context stays as it was and the reply is the
    refusal (or nothing at all, for a message outside any dialogue); no
    document is built. *)
Theorem dispatch_refuses (c : FSMContext) (e : event) :
  (dispatch c false e).1 = c ∧
  ((dispatch c false e).2 = Denied ∨
   ((dispatch c false e).2 = Ignored ∧ state c = NoState ∧ ∃ text x, e = Msg text x)).
Proof.
  destruct e; simpl; try (by auto).
  destruct (state c) eqn:Hs; simpl; eauto 10.
Qed.



(** X25: a link sent in the link state when nothing is stored, as after
    pressing a back button of an earlier, finished or cancelled dialogue,
    builds the card with the placeholders "Имя" and "Цель". *)
Theorem tips_link_defaults (link : option str) (x : bool) :
  1 ≤ length (strip (default [] link)) ≤ 300 →
  match_scheme (strip (default [] link)) = true →
  dialogue cleared [(true, CbTipsBackLink); (true, Msg link x)]
  = [AskLink; TipsPdf DEFAULT_NAME DEFAULT_GOAL (strip (default [] link))].
Proof.
  intros Hl Hm. apply length_check in Hl.
  simpl. unfold tips_link. simpl. by rewrite Hl, Hm.
Qed.

Lemma tips_link_defaults_witness :
  dialogue cleared [(true, CbTipsBackLink); (true, Msg (Some (lit "http://x.y")) false)]
  = [AskLink; TipsPdf DEFAULT_NAME DEFAULT_GOAL (strip (default [] (Some (lit "http://x.y"))))].
Proof.
  apply (tips_link_defaults (Some (lit "http://x.y")) false).
  - vm_compute. lia.
  - reflexivity.
Defined.

(** ** Alignment inside a rectangle, and the brand line *)




(** ** Sentence case *)

Lemma is_letter_visible (c : char) : is_letter c = true → isspace c = false.
Proof.
  unfold is_letter, isspace. intros H. apply not_true_is_false. intros Hs.
  rewrite !orb_true_iff, !andb_true_iff, !N.leb_le, !N.eqb_eq in H.
  rewrite !orb_true_iff, !andb_true_iff, !N.leb_le, !N.eqb_eq in Hs. lia.
Qed.

Lemma is_terminator_visible (c : char) : is_terminator c = true → isspace c = false.
Proof.
  unfold is_terminator, isspace. intros H. apply not_true_is_false. intros Hs.
  rewrite !orb_true_iff, !N.eqb_eq in H.
  rewrite !orb_true_iff, !andb_true_iff, !N.leb_le, !N.eqb_eq in Hs. lia.
Qed.

Lemma is_terminator_not_letter (c : char) : is_terminator c = true → is_letter c ≠ true.
Proof.
  unfold is_terminator, is_letter. intros H Hl.
  rewrite !orb_true_iff, !N.eqb_eq in H.
  rewrite !orb_true_iff, !andb_true_iff, !N.leb_le, !N.eqb_eq in Hl. lia.
Qed.

Lemma upper_letter_cases (c : char) :
  (((97 ≤ c ∧ c ≤ 122) ∨ (1072 ≤ c ∧ c ≤ 1103)) ∧ upper_letter c = c - 32 ∨
   c = 1105 ∧ upper_letter c = 1025 ∨
   (¬ (97 ≤ c ∧ c ≤ 122) ∧ ¬ (1072 ≤ c ∧ c ≤ 1103) ∧ c ≠ 1105) ∧ upper_letter c = c)%N.
Proof.
  unfold upper_letter.
  destruct ((97 <=? c)%N && (c <=? 122)%N || (1072 <=? c)%N && (c <=? 1103)%N) eqn:H.
  - rewrite !orb_true_iff, !andb_true_iff, !N.leb_le in H. left. split; [lia|done].
  - apply not_true_iff_false in H.
    rewrite !orb_true_iff, !andb_true_iff, !N.leb_le in H.
    destruct (N.eqb_spec c 1105) as [->|Hc]; [right; left; done|].
    right. right. split; [lia|done].
Qed.

Lemma upper_letter_idemp (c : char) : upper_letter (upper_letter c) = upper_letter c.
Proof.
  destruct (upper_letter_cases c) as [[H ->]|[[-> ->]|[H ->]]].
  - destruct (upper_letter_cases (c - 32)) as [[H' _]|[[H' _]|[_ ->]]]; [lia|lia|done].
  - reflexivity.
  - destruct (upper_letter_cases c) as [[H' _]|[[H' _]|[_ ->]]]; [lia|lia|done].
Qed.

Lemma upper_letter_is_letter (c : char) : is_letter c = true → is_letter (upper_letter c) = true.
Proof.
  intros H. destruct (upper_letter_cases c) as [[H' ->]|[[-> ->]|[_ ->]]]; [|done|done].
  unfold is_letter.
  rewrite !orb_true_iff, !andb_true_iff, !N.leb_le, !N.eqb_eq. lia.
Qed.

Lemma capitalize_first_nil (chunk : str) :
  (if nonempty chunk then capitalize_first chunk else chunk) = capitalize_first chunk.
Proof. by destruct chunk. Qed.

Lemma rev_filter (P : char → Prop) `{∀ c, Decision (P c)} (s : str) :
  filter P (rev s) = rev (filter P s).
Proof.
  induction s as [|c s IH]; simpl; [done|].
  rewrite filter_app, IH, filter_cons. destruct (decide (P c)); simpl.
  - by rewrite filter_cons_True, filter_nil by done.
  - by rewrite filter_cons_False, filter_nil, app_nil_r by done.
Qed.

(** What the whitespace handling of [normalize_sentence_case] keeps: every
    character of a class that holds no whitespace. *)
Section kept.
Variable P : char → Prop.
Context `{∀ c, Decision (P c)}.
Hypothesis P_visible : ∀ c, P c → isspace c = false.

Lemma kept_space (c : char) : isspace c = true → ¬ P c.
Proof. intros Hc HP. apply P_visible in HP. congruence. Qed.

Lemma kept_lstrip (s : str) : filter P (lstrip s) = filter P s.
Proof.
  induction s as [|c s IH]; simpl; [done|].
  destruct (isspace c) eqn:Hc; [|done].
  by rewrite filter_cons_False by by apply kept_space.
Qed.

Lemma kept_rstrip (s : str) : filter P (rstrip s) = filter P s.
Proof.
  unfold rstrip. by rewrite rev_filter, kept_lstrip, rev_filter, rev_involutive.
Qed.

Lemma kept_strip (s : str) : filter P (strip s) = filter P s.
Proof. unfold strip. by rewrite kept_rstrip, kept_lstrip. Qed.

Lemma kept_sub_ws_from (b : bool) (s : str) : filter P (sub_ws_from b s) = filter P s.
Proof.
  revert b. induction s as [|c s IH]; intros b; simpl; [done|].
  destruct (isspace c) eqn:Hc.
  - rewrite (filter_cons_False P c) by by apply kept_space.
    destruct b; [done|].
    rewrite filter_cons_False; [done|]. by apply kept_space.
  - by rewrite !filter_cons, IH.
Qed.

Lemma kept_normalize_ws (text : str) : filter P (normalize_ws text) = filter P text.
Proof. unfold normalize_ws, sub_ws. by rewrite kept_sub_ws_from, kept_strip. Qed.

Lemma kept_join_space (parts : list str) :
  filter P (join_space parts) = concat (filter P <$> parts).
Proof.
  induction parts as [|p [|q rest] IH]; [done|simpl; by rewrite app_nil_r|].
  change (join_space (p :: q :: rest)) with (p ++ [SPACE] ++ join_space (q :: rest)).
  rewrite !filter_app, IH. rewrite (filter_cons_False P SPACE) by by apply kept_space.
  by rewrite filter_nil.
Qed.

Lemma kept_close_up_terminators (s : str) :
  filter P (close_up_terminators s) = filter P s.
Proof.
  induction s as [|c s IH]; simpl; [done|].
  destruct (isspace c) eqn:Hc; simpl.
  - rewrite (filter_cons_False P c) by by apply kept_space.
    case_match; [done|]. rewrite filter_cons_False; [done|]. by apply kept_space.
  - by rewrite !filter_cons, IH.
Qed.

Lemma kept_stripped_chunks (out : list str) :
  concat (filter P <$> filter (λ x, x ≠ []) (strip <$> out)) = concat (filter P <$> out).
Proof.
  induction out as [|x out IH]; [done|]. rewrite fmap_cons, filter_cons.
  destruct (decide (strip x ≠ [])) as [Hx|Hx].
  - rewrite !fmap_cons. simpl. by rewrite IH, kept_strip.
  - apply dec_stable in Hx. rewrite fmap_cons. simpl.
    by rewrite IH, <- (kept_strip x), Hx.
Qed.

Lemma kept_normalize_sentence_case (text : str) :
  filter P (normalize_sentence_case text)
  = if nonempty (normalize_ws text)
    then concat (filter P <$>
                   sentence_chunks (split_terminators_from false (normalize_ws text)))
    else filter P text.
Proof.
  unfold normalize_sentence_case. cbv zeta.
  destruct (nonempty (normalize_ws text)); simpl.
  - by rewrite kept_strip, kept_close_up_terminators, kept_join_space,
      kept_stripped_chunks.
  - apply kept_normalize_ws.
Qed.
End kept.

Lemma split_terminators_from_concat (b : bool) (s : str) :
  concat (split_terminators_from b s) = s.
Proof.
  revert b. induction s as [|c s IH]; intros b; simpl; [by destruct b|].
  destruct (Bool.eqb (is_terminator c) b).
  - specialize (IH b). destruct (split_terminators_from b s); simpl in *; by subst.
  - specialize (IH (negb b)).
    destruct (split_terminators_from (negb b) s); simpl in *; by subst.
Qed.

Lemma split_terminators_from_runs (b : bool) (s : str) :
  runs_ok b (split_terminators_from b s).
Proof.
  revert b. induction s as [|c s IH]; intros b; simpl.
  - destruct b; simpl; by repeat split.
  - destruct (Bool.eqb (is_terminator c) b) eqn:Hc.
    + apply eqb_prop in Hc. specialize (IH b).
      destruct (split_terminators_from b s) as [|p ps]; simpl in *.
      * split; [|done]. intros ->. by repeat constructor.
      * destruct IH as [Hp Hps]. split; [|done]. intros ->.
        constructor; [done|by apply Hp].
    + apply eqb_false_iff in Hc. specialize (IH (negb b)).
      assert (negb b = true → is_terminator c = true) as Hb.
      { destruct b, (is_terminator c); done. }
      destruct (split_terminators_from (negb b) s) as [|p ps]; simpl in *.
      * split; [done|]. split; [|done]. intros Hn. by repeat constructor; auto.
      * destruct IH as [Hp Hps]. split; [done|]. split; [|done].
        intros Hn. constructor; auto.
Qed.

Lemma capitalize_first_visible (chunk : str) :
  upper_letter <$> visible (capitalize_first chunk) = upper_letter <$> visible chunk.
Proof.
  unfold visible. induction chunk as [|c t IH]; simpl; [done|].
  destruct (is_letter c) eqn:Hc.
  - pose proof (is_letter_visible _ Hc) as Hv.
    pose proof (is_letter_visible _ (upper_letter_is_letter _ Hc)) as Hu.
    rewrite !filter_cons_True by done. simpl. by rewrite upper_letter_idemp.
  - rewrite !filter_cons. destruct (decide (isspace c = false)); [|done].
    rewrite !fmap_cons. by f_equal.
Qed.

Lemma capitalize_first_letters (chunk : str) :
  filter (λ c, is_letter c = true) (capitalize_first chunk)
  = match filter (λ c, is_letter c = true) chunk with
    | [] => []
    | c :: t => upper_letter c :: t
    end.
Proof.
  induction chunk as [|c t IH]; simpl; [done|].
  destruct (is_letter c) eqn:Hc.
  - rewrite !filter_cons_True; [done|done|]. by apply upper_letter_is_letter.
  - rewrite !filter_cons_False by congruence. done.
Qed.

Lemma runs_no_letter (p : str) :
  Forall (λ c, is_terminator c = true) p → filter (λ c, is_letter c = true) p = [].
Proof.
  induction 1 as [|c p Hc Hp IH]; [done|].
  rewrite filter_cons_False; [done|]. by apply is_terminator_not_letter.
Qed.

Lemma sentence_chunks_visible (parts : list str) :
  upper_letter <$> concat (visible <$> sentence_chunks parts)
  = upper_letter <$> visible (concat parts).
Proof.
  assert (∀ n parts, length parts ≤ n →
            upper_letter <$> concat (visible <$> sentence_chunks parts)
            = upper_letter <$> visible (concat parts)) as Hind;
    [|by apply (Hind (length parts))].
  clear parts. induction n as [|n IH]; intros parts Hn.
  { by destruct parts; [|simpl in Hn; lia]. }
  destruct parts as [|text [|punct rest]]; [done| |].
  - simpl. rewrite capitalize_first_nil, !app_nil_r.
    rewrite capitalize_first_visible. unfold visible.
    by rewrite (kept_strip _ (λ c H, H)).
  - change (sentence_chunks (text :: punct :: rest))
      with (((if nonempty (strip text) then capitalize_first (strip text) else strip text)
               ++ punct) :: sentence_chunks rest).
    rewrite capitalize_first_nil. rewrite fmap_cons. simpl.
    unfold visible at 1 3. rewrite !filter_app, !fmap_app.
    fold (visible (capitalize_first (strip text))). rewrite capitalize_first_visible.
    unfold visible at 1. rewrite (kept_strip _ (λ c H, H)).
    fold (visible (concat rest)). rewrite <- IH by (simpl in Hn; lia).
    by rewrite app_assoc.
Qed.

Lemma sentence_chunks_first_letter (parts : list str) :
  runs_ok false parts →
  head (concat (filter (λ c, is_letter c = true) <$> sentence_chunks parts))
  = upper_letter <$> head (filter (λ c, is_letter c = true) (concat parts)).
Proof.
  assert (∀ n parts, length parts ≤ n → runs_ok false parts →
            head (concat (filter (λ c, is_letter c = true) <$> sentence_chunks parts))
            = upper_letter <$> head (filter (λ c, is_letter c = true) (concat parts)))
    as Hind; [|by apply (Hind (length parts))].
  clear parts. induction n as [|n IH]; intros parts Hn Hok.
  { by destruct parts; [|simpl in Hn; lia]. }
  destruct parts as [|text [|punct rest]]; [done| |].
  - simpl. rewrite capitalize_first_nil, !app_nil_r.
    rewrite capitalize_first_letters, (kept_strip _ is_letter_visible).
    by destruct (filter _ text).
  - change (sentence_chunks (text :: punct :: rest))
      with (((if nonempty (strip text) then capitalize_first (strip text) else strip text)
               ++ punct) :: sentence_chunks rest).
    rewrite capitalize_first_nil. rewrite fmap_cons. simpl.
    destruct Hok as [_ [Hpunct Hrest]]. simpl in Hrest.
    rewrite !filter_app, (runs_no_letter punct) by by apply Hpunct.
    rewrite capitalize_first_letters, (kept_strip _ is_letter_visible).
    destruct (filter _ text) as [|c t]; simpl; [|done].
    apply IH; [simpl in Hn; lia|done].
Qed.

(** X28: [normalize_sentence_case] changes nothing but the case of letters
    and the whitespace: the characters that are not whitespace are, up to
    case, those of the text, in the same order, none lost and none added. A
    text that is empty or all whitespace gives the empty string, and the
    result never starts or ends with whitespace. *)
Theorem normalize_sentence_case_keeps_text (text : str) :
  upper_letter <$> visible (normalize_sentence_case text) = upper_letter <$> visible text ∧
  (Forall (λ c, isspace c = true) text → normalize_sentence_case text = []) ∧
  starts_ok (normalize_sentence_case text) ∧
  ends_ok (normalize_sentence_case text).
Proof.
  split; [|split].
  - unfold visible at 1. rewrite (kept_normalize_sentence_case _ (λ c H, H)).
    destruct (nonempty (normalize_ws text)); [|done].
    change (upper_letter <$>
              concat (visible <$>
                        sentence_chunks (split_terminators_from false (normalize_ws text)))
            = upper_letter <$> visible text).
    rewrite sentence_chunks_visible, split_terminators_from_concat.
    unfold visible. by rewrite (kept_normalize_ws _ (λ c H, H)).
  - intros Hblank. unfold normalize_sentence_case.
    by rewrite (proj2 (normalize_ws_blank text Hblank)).
  - unfold normalize_sentence_case. cbv zeta.
    destruct (nonempty (normalize_ws text)) eqn:Hne; simpl.
    + split; [apply strip_starts_ok|apply strip_ends_ok].
    + destruct (normalize_ws text); [|done]. by split; intros c Hc.
Qed.

(** X29: the first letter of the result of [normalize_sentence_case] is the
    first letter of the text in upper case, and the result has a letter
    exactly when the text has one. *)
Theorem normalize_sentence_case_first_letter (text : str) :
  first_letter (normalize_sentence_case text) = upper_letter <$> first_letter text ∧
  ∀ c, first_letter (normalize_sentence_case text) = Some c →
       is_letter c = true ∧ upper_letter c = c.
Proof.
  assert (first_letter (normalize_sentence_case text) = upper_letter <$> first_letter text)
    as Hfirst.
  { unfold first_letter. rewrite (kept_normalize_sentence_case _ is_letter_visible).
    destruct (nonempty (normalize_ws text)) eqn:Hne.
    - rewrite sentence_chunks_first_letter by apply split_terminators_from_runs.
      by rewrite split_terminators_from_concat, (kept_normalize_ws _ is_letter_visible).
    - rewrite <- (kept_normalize_ws _ is_letter_visible).
      by destruct (normalize_ws text). }
  split; [done|]. intros c Hc. rewrite Hfirst in Hc.
  unfold first_letter in Hc.
  destruct (filter (λ c, is_letter c = true) text) as [|d t] eqn:Hd; [done|].
  simpl in Hc. injection Hc as <-.
  assert (d ∈ filter (λ c, is_letter c = true) text) as Hin by (rewrite Hd; left).
  apply list_elem_of_filter in Hin as [Hl _].
  split; [by apply upper_letter_is_letter|apply upper_letter_idemp].
Qed.
